(** * SpdifTx: the double-buffered S/PDIF transmit pipeline of convolvIR

    A shallow embedding of [src/spdifTx.cpp] (i.MX RT1060 hardware S/PDIF
    transmitter driven by eDMA) and the properties of its block queue,
    interrupt handler, half-buffer selection and sample encoder.

    Conventions of the embedding:
    - [int16_t], [int32_t] and [uint32_t] values are integers of [Z]; the
      wrap-around of the 32-bit types is written out ([wrap_int32],
      [wrap_uint32]).
    - [fifoTx] and the sample arrays are lists indexed with stdpp's lookup;
      an access outside the array is undefined behaviour in C++ and is
      [None] here, so that "the function returns [Some]" means "every access
      was in bounds".
    - the two pending-block arrays [leftAudioBuffer] and [rightAudioBuffer]
      have the fixed size 2 of the source and are vectors of length 2.
    - calls that leave the translation unit ([release], [update_all],
      [__disable_irq], the write to [DMA_CINT], the cache maintenance) are
      recorded, in program order, in a trace of effects. *)

From Stdlib Require Import ZArith Lia.
From stdpp Require Import base decidable numbers option list vector gmap.

Local Open Scope Z_scope.

(** ** Machine integers *)

Definition wrap_uint32 (z : Z) : Z := z mod 2 ^ 32.

Definition wrap_int32 (z : Z) : Z := (z + 2 ^ 31) mod 2 ^ 32 - 2 ^ 31.

Definition is_int16 (z : Z) : Prop := -32768 <= z <= 32767.

Definition is_int32 (z : Z) : Prop := - 2 ^ 31 <= z < 2 ^ 31.

#[global] Instance is_int16_dec z : Decision (is_int16 z).
Proof. unfold is_int16. apply _. Defined.

(** [x << 8] for an [int16_t] operand: the operand is promoted to [int]
    and shifted as a two's-complement number (the compiler's definition for
    a negative operand); the result is stored into an [int32_t]. *)
Definition shl8 (x : Z) : Z := wrap_int32 (Z.shiftl x 8).

(** ** Memory: audio blocks and pointers to them *)

(** [audio_block_t]; only the sample array [data] is read by this file. *)
Record audio_block_t := mk_audio_block { data : list Z }.

(** An [audio_block_t *] is the null pointer, the address of the file's
    static [silentAudio], or the address of a block of the audio library's
    pool.  Pointer comparison in the source is equality here. *)
Inductive audio_block_ptr :=
  | nullptr
  | addr_silentAudio
  | addr_pool (n : nat).

#[global] Instance audio_block_ptr_eq_dec : EqDecision audio_block_ptr.
Proof. solve_decision. Defined.

#[global] Instance audio_block_ptr_inhabited : Inhabited audio_block_ptr :=
  populate nullptr.

(** [AUDIO_BLOCK_SAMPLES] of the audio library. *)
Definition AUDIO_BLOCK_SAMPLES : nat := 128.

(** A block as [memset (&b, 0, sizeof b)] leaves it. *)
Definition zero_block : audio_block_t :=
  mk_audio_block (replicate AUDIO_BLOCK_SAMPLES 0).

(** ** Effects that leave the translation unit *)

Inductive effect :=
  | DisableIrq                          (* __disable_irq() *)
  | EnableIrq                           (* __enable_irq() *)
  | ClearInterrupt                      (* DMA_CINT = eDMA.channel *)
  | DcacheFlushDelete (word : Z) (bytes : Z) (* arm_dcache_flush_delete *)
  | Release (p : audio_block_ptr)       (* AudioStream::release *)
  | UpdateAll.                          (* AudioStream::update_all *)

#[global] Instance effect_eq_dec : EqDecision effect.
Proof. solve_decision. Defined.

(** The blocks passed to [release], in order. *)
Fixpoint releases (tr : list effect) : list audio_block_ptr :=
  match tr with
  | [] => []
  | Release p :: tr' => p :: releases tr'
  | _ :: tr' => releases tr'
  end.

(** ** State of the driver *)

Record SpdifTx := mk_SpdifTx {
  fifoTx_addr : Z;                          (* (uint32_t)&fifoTx[0] *)
  fifoTx : list Z;                          (* int32_t fifoTx[512] *)
  silentAudio : audio_block_t;              (* static audio_block_t *)
  leftAudioBuffer : vec audio_block_ptr 2;  (* audio_block_t *[2] *)
  rightAudioBuffer : vec audio_block_ptr 2;
  pool : gmap nat audio_block_t;            (* the audio library's blocks *)
  trace : list effect                       (* effects so far, oldest first *)
}.

Definition set_fifoTx (m : list Z) (st : SpdifTx) : SpdifTx :=
  mk_SpdifTx (fifoTx_addr st) m (silentAudio st) (leftAudioBuffer st)
             (rightAudioBuffer st) (pool st) (trace st).

Definition set_silentAudio (b : audio_block_t) (st : SpdifTx) : SpdifTx :=
  mk_SpdifTx (fifoTx_addr st) (fifoTx st) b (leftAudioBuffer st)
             (rightAudioBuffer st) (pool st) (trace st).

Definition set_leftAudioBuffer (q : vec audio_block_ptr 2) (st : SpdifTx)
  : SpdifTx :=
  mk_SpdifTx (fifoTx_addr st) (fifoTx st) (silentAudio st) q
             (rightAudioBuffer st) (pool st) (trace st).

Definition set_rightAudioBuffer (q : vec audio_block_ptr 2) (st : SpdifTx)
  : SpdifTx :=
  mk_SpdifTx (fifoTx_addr st) (fifoTx st) (silentAudio st)
             (leftAudioBuffer st) q (pool st) (trace st).

Definition emit (e : effect) (st : SpdifTx) : SpdifTx :=
  mk_SpdifTx (fifoTx_addr st) (fifoTx st) (silentAudio st)
             (leftAudioBuffer st) (rightAudioBuffer st) (pool st)
             (trace st ++ [e]).

(** [release (p)] *)
Definition release (p : audio_block_ptr) (st : SpdifTx) : SpdifTx :=
  emit (Release p) st.

(** [p->data]: dereferencing the null pointer or a pointer to no block is
    undefined. *)
Definition deref_data (st : SpdifTx) (p : audio_block_ptr) : option (list Z) :=
  match p with
  | nullptr => None
  | addr_silentAudio => Some (data (silentAudio st))
  | addr_pool n => data <$> pool st !! n
  end.

(** ** getTxOffset *)

(** [SADDR] is the value read from the volatile register [eDMA.TCD->SADDR];
    the sum on the right of the comparison is a [uint32_t] sum. *)
Definition getTxOffset (SADDR : Z) (txSourceAddress sourceBufferSize : Z) : Z :=
  if decide (wrap_uint32 SADDR < wrap_uint32 (txSourceAddress + sourceBufferSize))
  then 0x0100 else 0x0000.

(** ** spdifInterleave *)

(** [mem[i] = v] *)
Definition store (mem : list Z) (i : nat) (v : Z) : option (list Z) :=
  if decide (i < length mem)%nat then Some (<[i:=v]> mem) else None.

(** [pTx[k] = src[j] << 8], with [pTx] the word index of the destination
    window in [mem] *)
Definition put_sample (pTx k : nat) (src : list Z) (j : nat) (mem : list Z)
  : option (list Z) :=
  x ← src !! j; store mem (pTx + k)%nat (shl8 x).

(** The body of the loop, unrolled four times in the source. *)
Definition interleave_body (pTx : nat) (leftAudioData rightAudioData : list Z)
    (i : nat) (mem : list Z) : option (list Z) :=
  mem ← put_sample pTx (2 * i) leftAudioData i mem;
  mem ← put_sample pTx (2 * i + 1) rightAudioData i mem;
  mem ← put_sample pTx (2 * i + 2) leftAudioData (i + 1) mem;
  mem ← put_sample pTx (2 * i + 3) rightAudioData (i + 1) mem;
  mem ← put_sample pTx (2 * i + 4) leftAudioData (i + 2) mem;
  mem ← put_sample pTx (2 * i + 5) rightAudioData (i + 2) mem;
  mem ← put_sample pTx (2 * i + 6) leftAudioData (i + 3) mem;
  put_sample pTx (2 * i + 7) rightAudioData (i + 3) mem.

(** [for (; i < 128; i += 4) body]; [fuel] bounds the number of iterations. *)
Fixpoint interleave_loop (fuel : nat) (pTx : nat)
    (leftAudioData rightAudioData : list Z) (i : nat) (mem : list Z)
  : option (list Z) :=
  if decide (i < 128)%nat then
    match fuel with
    | O => None
    | S fuel' =>
        mem' ← interleave_body pTx leftAudioData rightAudioData i mem;
        interleave_loop fuel' pTx leftAudioData rightAudioData (i + 4) mem'
    end
  else Some mem.

Definition spdifInterleave (pTx : nat) (leftAudioData rightAudioData : list Z)
    (mem : list Z) : option (list Z) :=
  interleave_loop 128 pTx leftAudioData rightAudioData 0 mem.

(** ** The driver *)

Abbreviation slot0 := (0%fin : fin 2) (only parsing).
Abbreviation slot1 := (1%fin : fin 2) (only parsing).

(** The part of [init] that touches memory: both [memset]s of the source
    clear static objects, then the loop empties the two queues.  The
    register programming before it ([configureDMA],
    [configureSpdifRegisters]) writes no object of the state. *)
Definition init_slot (st : SpdifTx) (i : fin 2) : SpdifTx :=
  let st := set_leftAudioBuffer (vinsert i nullptr (leftAudioBuffer st)) st in
  set_rightAudioBuffer (vinsert i nullptr (rightAudioBuffer st)) st.

Definition init (st : SpdifTx) : SpdifTx :=
  let st := set_silentAudio zero_block st in
  foldl init_slot st [slot0; slot1].

(** [p ?: q], the GNU conditional with omitted middle operand. *)
Definition elvis (p q : audio_block_ptr) : audio_block_ptr :=
  if decide (p = nullptr) then q else p.

(** The local [txOffset] of [dmaISR]: the result of
    [getTxOffset ((uint32_t)&fifoTx[0], 1024)]. *)
Definition isr_txOffset (SADDR : Z) (st : SpdifTx) : Z :=
  getTxOffset SADDR (wrap_uint32 (fifoTx_addr st)) 1024.

(** The locals [leftAudio] and [rightAudio] of [dmaISR]. *)
Definition isr_leftAudio (st : SpdifTx) : audio_block_ptr :=
  elvis (leftAudioBuffer st !!! slot0) addr_silentAudio.

Definition isr_rightAudio (st : SpdifTx) : audio_block_ptr :=
  elvis (rightAudioBuffer st !!! slot0) addr_silentAudio.

(** The four assignments under the [if] of [dmaISR]. *)
Definition isr_rotate (st : SpdifTx) : SpdifTx :=
  let st := set_leftAudioBuffer
              (vinsert slot0 (leftAudioBuffer st !!! slot1) (leftAudioBuffer st)) st in
  let st := set_leftAudioBuffer (vinsert slot1 nullptr (leftAudioBuffer st)) st in
  let st := set_rightAudioBuffer
              (vinsert slot0 (rightAudioBuffer st !!! slot1) (rightAudioBuffer st)) st in
  set_rightAudioBuffer (vinsert slot1 nullptr (rightAudioBuffer st)) st.

(** One firing of the interrupt handler; [SADDR] is what the handler reads
    from the engine's source-address register. *)
Definition dmaISR (SADDR : Z) (st : SpdifTx) : option SpdifTx :=
  let txOffset := isr_txOffset SADDR st in
  let st := emit ClearInterrupt st in
  let txBaseAddress := Z.to_nat txOffset in
  let leftAudio := isr_leftAudio st in
  let rightAudio := isr_rightAudio st in
  leftData ← deref_data st leftAudio;
  rightData ← deref_data st rightAudio;
  mem ← spdifInterleave txBaseAddress leftData rightData (fifoTx st);
  let st := set_fifoTx mem st in
  let st := emit (DcacheFlushDelete txOffset 1024) st in
  let st :=
    if decide (leftAudio ≠ addr_silentAudio ∧ rightAudio ≠ addr_silentAudio)
    then isr_rotate (release rightAudio (release leftAudio st))
    else st in
  Some (emit UpdateAll st).

(** The "switcheroo" of [update], written out once per channel in the
    source: the new queue and the new value of the local that held the
    incoming block. *)
Definition switcheroo (q : vec audio_block_ptr 2) (audio : audio_block_ptr)
  : vec audio_block_ptr 2 * audio_block_ptr :=
  if decide (q !!! slot0 = nullptr) then (vinsert slot0 audio q, nullptr)
  else if decide (q !!! slot1 = nullptr) then (vinsert slot1 audio q, nullptr)
  else
    let shiftTemp := q !!! slot0 in
    let q := vinsert slot0 (q !!! slot1) q in
    let q := vinsert slot1 audio q in
    (q, shiftTemp).

(** One call of [update]; [leftAudio] and [rightAudio] are the results of
    the two [receiveReadOnly] calls that open it. *)
Definition update (leftAudio rightAudio : audio_block_ptr) (st : SpdifTx)
  : SpdifTx :=
  let st := emit DisableIrq st in
  let '(st, leftAudio, rightAudio) :=
    if decide (leftAudio ≠ nullptr ∧ rightAudio ≠ nullptr) then
      let '(q, leftAudio) := switcheroo (leftAudioBuffer st) leftAudio in
      let st := set_leftAudioBuffer q st in
      let '(q, rightAudio) := switcheroo (rightAudioBuffer st) rightAudio in
      let st := set_rightAudioBuffer q st in
      (st, leftAudio, rightAudio)
    else (st, leftAudio, rightAudio) in
  let st := emit EnableIrq st in
  if decide (leftAudio ≠ nullptr ∧ rightAudio ≠ nullptr)
  then release rightAudio (release leftAudio st)
  else st.

(** ** Runs of the driver *)

(** [update] reads and writes the queues only between [__disable_irq] and
    [__enable_irq], and the handler is not re-entrant, so a run is a
    sequence of whole [update] calls and whole firings.  What [update] does
    outside its critical section touches its two locals only. *)

Inductive event :=
  | EvUpdate (leftAudio rightAudio : audio_block_ptr)
  | EvDmaISR (SADDR : Z).

Definition step (st : SpdifTx) (ev : event) : option SpdifTx :=
  match ev with
  | EvUpdate l r => Some (update l r st)
  | EvDmaISR a => dmaISR a st
  end.

Fixpoint run (st : SpdifTx) (evs : list event) : option SpdifTx :=
  match evs with
  | [] => Some st
  | ev :: evs' => st' ← step st ev; run st' evs'
  end.

(** ** Vocabulary of the properties *)

(** Number of occupied (non-null) slots of a queue. *)
Definition occupancy (q : vec audio_block_ptr 2) : nat :=
  length (filter (λ p, p ≠ nullptr) (vec_to_list q)).

(** A null entry never precedes a non-null entry. *)
Definition queue_ordered (q : vec audio_block_ptr 2) : Prop :=
  q !!! slot0 = nullptr → q !!! slot1 = nullptr.

(** The pending blocks of a queue, front first. *)
Definition pending (q : vec audio_block_ptr 2) : list audio_block_ptr :=
  filter (λ p, p ≠ nullptr) (vec_to_list q).

(** A block of [AUDIO_BLOCK_SAMPLES] samples of [int16_t]. *)
Definition block_ok (b : audio_block_t) : Prop :=
  length (data b) = AUDIO_BLOCK_SAMPLES ∧ Forall is_int16 (data b).

(** A pointer the audio library can hand to [update]: null, or the address
    of a block of its pool.  The static [silentAudio] is private to the
    driver and is never handed in. *)
Definition pool_ptr (st : SpdifTx) (p : audio_block_ptr) : Prop :=
  match p with
  | nullptr => True
  | addr_silentAudio => False
  | addr_pool n =>
      match pool st !! n with Some b => block_ok b | None => False end
  end.

(** A state in which every access of the handler is defined: [fifoTx] has
    its 512 words, [silentAudio] its samples, and the queues hold null or
    pool blocks. *)
Definition wf (st : SpdifTx) : Prop :=
  length (fifoTx st) = 512%nat
  ∧ block_ok (silentAudio st)
  ∧ Forall (pool_ptr st) (vec_to_list (leftAudioBuffer st))
  ∧ Forall (pool_ptr st) (vec_to_list (rightAudioBuffer st)).

#[global] Instance block_ok_dec b : Decision (block_ok b).
Proof. unfold block_ok. apply _. Defined.

#[global] Instance pool_ptr_dec st p : Decision (pool_ptr st p).
Proof.
  destruct p as [| | n]; simpl; [apply _ .. |].
  destruct (pool st !! n); apply _.
Defined.

#[global] Instance wf_dec st : Decision (wf st).
Proof. unfold wf. apply _. Defined.

(** Both queues are ordered. *)
Definition queues_ordered (st : SpdifTx) : Prop :=
  queue_ordered (leftAudioBuffer st) ∧ queue_ordered (rightAudioBuffer st).

(** The two queues are occupied slot for slot alike. *)
Definition lockstep (st : SpdifTx) : Prop :=
  (leftAudioBuffer st !!! slot0 = nullptr
   ↔ rightAudioBuffer st !!! slot0 = nullptr)
  ∧ (leftAudioBuffer st !!! slot1 = nullptr
     ↔ rightAudioBuffer st !!! slot1 = nullptr).

(** The receiver's decoding of a transmitted word: an arithmetic shift
    right by eight bits. *)
Definition decode (w : Z) : Z := Z.shiftr w 8.

(** The word of [fifoTx] at byte address [SADDR], for a buffer at [base]. *)
Definition word_at (base SADDR : Z) : Z := (SADDR - base) / 4.

(** The events a well-behaved environment produces in state [st]. *)
Definition event_ok (st : SpdifTx) (ev : event) : Prop :=
  match ev with
  | EvUpdate l r => pool_ptr st l ∧ pool_ptr st r
  | EvDmaISR _ => True
  end.

#[global] Instance queue_ordered_dec q : Decision (queue_ordered q).
Proof. unfold queue_ordered. apply _. Defined.

#[global] Instance queues_ordered_dec st : Decision (queues_ordered st).
Proof. unfold queues_ordered. apply _. Defined.

#[global] Instance lockstep_dec st : Decision (lockstep st).
Proof. unfold lockstep. apply _. Defined.

#[global] Instance event_ok_dec st ev : Decision (event_ok st ev).
Proof. destruct ev; simpl; apply _. Defined.

(** ** The history of a run *)

(** The pair of blocks an event puts into the queues: an [update] call
    queues its two blocks when both are present, and nothing otherwise. *)
Definition accepted_by (ev : event)
  : list (audio_block_ptr * audio_block_ptr) :=
  match ev with
  | EvUpdate l r => if decide (l ≠ nullptr ∧ r ≠ nullptr) then [(l, r)] else []
  | EvDmaISR _ => []
  end.

Definition accepted (evs : list event)
  : list (audio_block_ptr * audio_block_ptr) :=
  evs ≫= accepted_by.

(** Reading a trace: the handler runs from its write to [DMA_CINT] to its
    call of [update_all]. *)
Definition in_handler (b : bool) (e : effect) : bool :=
  match e with
  | ClearInterrupt => true
  | UpdateAll => false
  | _ => b
  end.

(** The blocks released by the handler, as opposed to those [update]
    evicted; [b] tells whether the trace starts inside the handler. *)
Fixpoint isr_releases (b : bool) (tr : list effect) : list audio_block_ptr :=
  match tr with
  | [] => []
  | e :: tr' =>
      match e with
      | Release p => if b then [p] else []
      | _ => []
      end ++ isr_releases (in_handler b e) tr'
  end.

(** Left and right blocks of a list of pairs, in the order the handler
    releases them. *)
Definition left_right (cs : list (audio_block_ptr * audio_block_ptr))
  : list audio_block_ptr :=
  cs ≫= λ c, [c.1; c.2].

(** The pending blocks of the two channels, paired front first. *)
Definition pending_pairs (st : SpdifTx)
  : list (audio_block_ptr * audio_block_ptr) :=
  zip (pending (leftAudioBuffer st)) (pending (rightAudioBuffer st)).

(** What a run keeps true, with [acc] the pairs accepted so far: the trace
    ends outside the handler, the queues are in lockstep and ordered, and
    the pairs released by the handler followed by the pending pairs are
    accepted pairs, in the order of acceptance. *)
Definition fifo_inv (st : SpdifTx)
    (acc : list (audio_block_ptr * audio_block_ptr)) : Prop :=
  foldl in_handler false (trace st) = false
  ∧ lockstep st
  ∧ queues_ordered st
  ∧ ∃ cs, isr_releases false (trace st) = left_right cs
          ∧ cs ++ pending_pairs st `sublist_of` acc.

(** A boot state: static storage as the loader leaves it, [fifoTx] at byte
    address [addr], and the blocks of the audio library. *)
Definition boot (addr : Z) (blocks : gmap nat audio_block_t) : SpdifTx :=
  mk_SpdifTx addr (replicate 512 0) zero_block
             [# nullptr; nullptr] [# nullptr; nullptr] blocks [].

(** ** Concrete states, for the examples *)

Definition ramp (from : Z) : audio_block_t :=
  mk_audio_block ((λ i : nat, from + Z.of_nat i) <$> seq 0 AUDIO_BLOCK_SAMPLES).

Definition L1 := addr_pool 1.
Definition R1 := addr_pool 2.
Definition L2 := addr_pool 3.
Definition R2 := addr_pool 4.
Definition L3 := addr_pool 5.
Definition R3 := addr_pool 6.

Definition demo_pool : gmap nat audio_block_t :=
  list_to_map [(1%nat, ramp (-32768)); (2%nat, ramp 32640);
               (3%nat, ramp (-64)); (4%nat, ramp 1000);
               (5%nat, ramp 0); (6%nat, ramp (-5000))].

Definition demo_base : Z := 0x20200000.

Definition demo_empty : SpdifTx := init (boot demo_base demo_pool).
Definition demo_one : SpdifTx := update L1 R1 demo_empty.
Definition demo_full : SpdifTx := update L2 R2 demo_one.

Definition demo_left_only : SpdifTx :=
  set_rightAudioBuffer [# nullptr; nullptr] demo_one.

(** Two blocks queued, one firing, an overrun-free third pair, a partial
    delivery and a second firing. *)
Definition demo_events : list event :=
  [EvUpdate L1 R1; EvUpdate L2 R2; EvDmaISR demo_base; EvUpdate L3 R3;
   EvUpdate L1 nullptr; EvDmaISR (demo_base + 1024)].

Definition demo_played : SpdifTx :=
  default demo_empty (run demo_empty demo_events).

(** ** The encoder as its comment states it *)

(** The words the comment in [spdifInterleave] asks for, without the
    unrolling: word [2 i] from [leftAudioData[i]], word [2 i + 1] from
    [rightAudioData[i]]. *)
Fixpoint ideal_interleave (leftAudioData rightAudioData : list Z) : list Z :=
  match leftAudioData, rightAudioData with
  | l :: la, r :: ra => shl8 l :: shl8 r :: ideal_interleave la ra
  | _, _ => []
  end.

(** The three fields of a transmit word: the low byte, the two centre
    bytes and the top byte (as a signed number). *)
Definition low_byte (w : Z) : Z := Z.land w 0xFF.
Definition centre_bytes (w : Z) : Z := Z.land (Z.shiftr w 8) 0xFFFF.
Definition top_byte (w : Z) : Z := Z.shiftr w 24.

(** A transmit word that carries the 16-bit sample [x]: low byte clear, the
    two's-complement pattern of [x] in the centre bytes, and the sign of [x]
    repeated through the top byte. *)
Definition carries_sample (w x : Z) : Prop :=
  low_byte w = 0
  ∧ centre_bytes w = x mod 2 ^ 16
  ∧ top_byte w = if decide (x < 0) then -1 else 0.

(** ** The two queues as one bounded queue of pairs *)

(** The newest two entries of a list, and the entries before them. *)
Definition last_two {A} (xs : list A) : list A := drop (length xs - 2) xs.

Definition all_but_last_two {A} (xs : list A) : list A :=
  take (length xs - 2) xs.

(** A sequence of [update] calls, each with the pair of blocks it
    receives. *)
Definition updates (ps : list (audio_block_ptr * audio_block_ptr))
    (st : SpdifTx) : SpdifTx :=
  foldl (λ st p, update p.1 p.2 st) st ps.

(** A pair of blocks, both present and both from the pool. *)
Definition pair_ok (st : SpdifTx) (p : audio_block_ptr * audio_block_ptr)
  : Prop :=
  (p.1 ≠ nullptr ∧ pool_ptr st p.1) ∧ (p.2 ≠ nullptr ∧ pool_ptr st p.2).

#[global] Instance pair_ok_dec st p : Decision (pair_ok st p).
Proof. unfold pair_ok. apply _. Defined.

(** One [update] call followed by one firing, for each pair of [ps]; the
    third component is what that firing reads from [SADDR]. *)
Definition paced (ps : list (audio_block_ptr * audio_block_ptr * Z))
  : list event :=
  ps ≫= λ p, [EvUpdate p.1.1 p.1.2; EvDmaISR p.2].

(** One pair queued and transmitted: the queues are empty again. *)
Definition demo_drained : SpdifTx :=
  default demo_empty (run demo_empty [EvUpdate L1 R1; EvDmaISR demo_base]).

(** A word the transmitter can take: low byte clear and the value of a
    16-bit sample shifted by eight bits, so within 24 bits as a signed
    number. *)
Definition transmit_word (w : Z) : Prop :=
  low_byte w = 0 ∧ - 2 ^ 23 <= w < 2 ^ 23.

#[global] Instance transmit_word_dec w : Decision (transmit_word w).
Proof. unfold transmit_word. apply _. Defined.

(** ** The transfer control descriptor *)

(** The fields [configureDMA] writes, by value: addresses, offsets and
    sizes in bytes, counts in service requests.  In the source [ATTR],
    [NBYTES_MLNO] and [CSR] are packed registers written through macros of
    the core library; their fields are kept apart here, transfer sizes as
    the exponent the source gives ([0b10], four bytes). *)
Record TCD_t := mk_TCD {
  TCD_SADDR : Z;
  TCD_SOFF : Z;
  TCD_ATTR_SSIZE : Z;
  TCD_ATTR_DSIZE : Z;
  TCD_NBYTES_DMLOE : bool;
  TCD_NBYTES_MLOFF : Z;
  TCD_NBYTES_NBYTES : Z;
  TCD_SLAST : Z;
  TCD_DADDR : Z;
  TCD_DOFF : Z;
  TCD_CITER : Z;
  TCD_DLASTSGA : Z;
  TCD_BITER : Z;
  TCD_CSR_INTHALF : bool;
  TCD_CSR_INTMAJOR : bool
}.

(** [configureDMA], with [&fifoTx[0]] and [&SPDIF_STL] as arguments. *)
Definition configureDMA (fifoTx_0 SPDIF_STL : Z) : TCD_t :=
  {| TCD_SADDR := fifoTx_0;
     TCD_SOFF := 4;
     TCD_ATTR_SSIZE := 2;            (* 0b10 *)
     TCD_ATTR_DSIZE := 2;            (* 0b10 *)
     TCD_NBYTES_DMLOE := true;
     TCD_NBYTES_MLOFF := -8;
     TCD_NBYTES_NBYTES := 8;
     TCD_SLAST := -2048;
     TCD_DADDR := SPDIF_STL;
     TCD_DOFF := 4;
     TCD_CITER := 256;
     TCD_DLASTSGA := -8;
     TCD_BITER := 256;
     TCD_CSR_INTHALF := true;
     TCD_CSR_INTMAJOR := true |}.

(** How the engine walks the source, as the comments of [configureDMA]
    have it: each service request transfers [NBYTES] bytes in reads of
    [2 ^ SSIZE] bytes, the source address moving by [SOFF] after each
    read; [source_at tcd k] is the source address when request [k] of a
    major loop is served, counting from 0.  After the last request of the
    loop [SLAST] is added. *)
Definition source_at (tcd : TCD_t) (k : Z) : Z :=
  TCD_SADDR tcd
  + k * (TCD_NBYTES_NBYTES tcd / 2 ^ TCD_ATTR_SSIZE tcd * TCD_SOFF tcd).

Definition source_after_loop (tcd : TCD_t) : Z :=
  source_at tcd (TCD_BITER tcd) + TCD_SLAST tcd.

(** ** Tactics *)

(** Name the fields of a state and the two slots of each of its queues. *)
Ltac open_state st :=
  let ql := fresh "ql" in
  let qr := fresh "qr" in
  destruct st as [? ? ? ql qr ? ?];
  inv_vec ql; intros ? ?; inv_vec qr; intros ? ?;
  simpl in *.

(** * Properties *)

(** ** Arithmetic of the encoder *)

Lemma wrap_int32_id z : is_int32 z → wrap_int32 z = z.
Proof.
  unfold is_int32, wrap_int32. intros Hz.
  rewrite Z.mod_small by lia. lia.
Qed.

Lemma shl8_int16 x : is_int16 x → shl8 x = Z.shiftl x 8.
Proof.
  unfold is_int16, shl8. intros Hx. apply wrap_int32_id.
  unfold is_int32. rewrite Z.shiftl_mul_pow2 by lia. lia.
Qed.

Lemma shiftr_shl8 x : is_int16 x → Z.shiftr (shl8 x) 8 = x.
Proof.
  intros Hx. rewrite shl8_int16 by done.
  rewrite Z.shiftr_shiftl_l by lia. reflexivity.
Qed.

(** ** The half-buffer selection *)

Lemma getTxOffset_cases SADDR base size :
  getTxOffset SADDR base size = 0x0000 ∨ getTxOffset SADDR base size = 0x0100.
Proof. unfold getTxOffset. case_decide; auto. Qed.

Lemma getTxOffset_lower SADDR base :
  0 <= base → base + 2048 <= 2 ^ 32 →
  base <= SADDR < base + 1024 → getTxOffset SADDR base 1024 = 0x0100.
Proof.
  intros Hb Hfit Ha. unfold getTxOffset, wrap_uint32.
  rewrite !Z.mod_small by lia. case_decide; [done | lia].
Qed.

Lemma getTxOffset_upper SADDR base :
  0 <= base → base + 2048 <= 2 ^ 32 →
  base + 1024 <= SADDR < base + 2048 → getTxOffset SADDR base 1024 = 0x0000.
Proof.
  intros Hb Hfit Ha. unfold getTxOffset, wrap_uint32.
  rewrite !Z.mod_small by lia. case_decide; [lia | done].
Qed.

(** ** The encoder loop *)

Lemma lookup_insert_at (mem : list Z) (i j : nat) (v : Z) :
  i = j → (j < length mem)%nat → <[i:=v]> mem !! j = Some v.
Proof. intros -> Hj. by apply list_lookup_insert_eq. Qed.

Lemma put_sample_Some (pTx k : nat) (src : list Z) (j : nat) (mem : list Z) x :
  src !! j = Some x → (pTx + k < length mem)%nat →
  put_sample pTx k src j mem = Some (<[(pTx + k)%nat := shl8 x]> mem).
Proof.
  intros Hx Hk. unfold put_sample, store. rewrite Hx. simpl.
  case_decide; [done | lia].
Qed.

Lemma sample_at (src : list Z) (j : nat) :
  length src = 128%nat → (j < 128)%nat → ∃ x, src !! j = Some x.
Proof. intros Hlen Hj. apply lookup_lt_is_Some_2. lia. Qed.

Section interleave.
Local Open Scope nat_scope.

Variables (pTx : nat) (la ra : list Z).
Hypothesis Hla : length la = 128.
Hypothesis Hra : length ra = 128.

(** One pass through the unrolled body writes the eight words
    [pTx + 2 i .. pTx + 2 i + 7] and nothing else. *)
Lemma interleave_body_spec i mem :
  i + 4 ≤ 128 → pTx + 2 * i + 8 ≤ length mem →
  ∃ mem', interleave_body pTx la ra i mem = Some mem'
    ∧ length mem' = length mem
    ∧ (∀ j, i ≤ j < i + 4 →
         mem' !! (pTx + 2 * j) = shl8 <$> la !! j
         ∧ mem' !! (pTx + 2 * j + 1) = shl8 <$> ra !! j)
    ∧ (∀ k, k < pTx + 2 * i ∨ pTx + 2 * i + 8 ≤ k → mem' !! k = mem !! k).
Proof.
  intros Hi Hmem.
  destruct (sample_at la i) as [l0 Hl0]; [done | lia |].
  destruct (sample_at la (i + 1)) as [l1 Hl1]; [done | lia |].
  destruct (sample_at la (i + 2)) as [l2 Hl2]; [done | lia |].
  destruct (sample_at la (i + 3)) as [l3 Hl3]; [done | lia |].
  destruct (sample_at ra i) as [r0 Hr0]; [done | lia |].
  destruct (sample_at ra (i + 1)) as [r1 Hr1]; [done | lia |].
  destruct (sample_at ra (i + 2)) as [r2 Hr2]; [done | lia |].
  destruct (sample_at ra (i + 3)) as [r3 Hr3]; [done | lia |].
  unfold interleave_body.
  repeat (erewrite put_sample_Some;
          [ simpl | eassumption | rewrite ?length_insert; lia ]).
  eexists. split; [reflexivity |].
  split; [by rewrite !length_insert |].
  split.
  - intros j Hj.
    assert (j = i ∨ j = i + 1 ∨ j = i + 2 ∨ j = i + 3) as Hcase by lia.
    destruct Hcase as [-> | [-> | [-> | ->]]];
      rewrite ?Hl0, ?Hl1, ?Hl2, ?Hl3, ?Hr0, ?Hr1, ?Hr2, ?Hr3; simpl;
      (split;
       (repeat (rewrite list_lookup_insert_ne by lia));
       (apply lookup_insert_at; [lia | rewrite ?length_insert; lia])).
  - intros k Hk. by repeat (rewrite list_lookup_insert_ne by lia).
Qed.

(** The loop started at [i], a multiple of four, with at least the
    remaining number of iterations as fuel. *)
Lemma interleave_loop_spec fuel : ∀ n mem,
  n ≤ 32 → 32 - n ≤ fuel → pTx + 256 ≤ length mem →
  ∃ mem', interleave_loop fuel pTx la ra (4 * n) mem = Some mem'
    ∧ length mem' = length mem
    ∧ (∀ j, 4 * n ≤ j < 128 →
         mem' !! (pTx + 2 * j) = shl8 <$> la !! j
         ∧ mem' !! (pTx + 2 * j + 1) = shl8 <$> ra !! j)
    ∧ (∀ k, k < pTx + 8 * n ∨ pTx + 256 ≤ k → mem' !! k = mem !! k).
Proof.
  induction fuel as [| fuel IH]; intros n mem Hn Hfuel Hmem.
  - assert (n = 32) as -> by lia. simpl.
    exists mem. split; [done |]. split; [done |]. split; [intros j Hj; lia | done].
  - cbn [interleave_loop]. case_decide as Hlt.
    + destruct (interleave_body_spec (4 * n) mem) as (m1 & Hb & Hlen1 & Hin1 & Hout1);
        [lia | lia |].
      rewrite Hb. cbn [mbind option_bind].
      destruct (IH (S n) m1) as (m2 & Hl & Hlen2 & Hin2 & Hout2);
        [lia | lia | lia |].
      replace (4 * n + 4) with (4 * S n) by lia.
      exists m2. split; [done |]. split; [congruence |]. split.
      * intros j Hj. destruct (decide (4 * S n ≤ j)) as [Hge | Hlow].
        -- apply Hin2. lia.
        -- rewrite !Hout2 by lia. apply Hin1. lia.
      * intros k Hk. rewrite Hout2 by lia. apply Hout1. lia.
    + assert (n = 32) as -> by lia.
      exists mem. split; [done |]. split; [done |]. split; [intros j Hj; lia | done].
Qed.

(** [spdifInterleave] is defined whenever the 256-word window lies inside
    the destination; it fills the window and leaves the rest alone. *)
Lemma spdifInterleave_spec mem :
  pTx + 256 ≤ length mem →
  ∃ mem', spdifInterleave pTx la ra mem = Some mem'
    ∧ length mem' = length mem
    ∧ (∀ j, j < 128 →
         mem' !! (pTx + 2 * j) = shl8 <$> la !! j
         ∧ mem' !! (pTx + 2 * j + 1) = shl8 <$> ra !! j)
    ∧ (∀ k, k < pTx ∨ pTx + 256 ≤ k → mem' !! k = mem !! k).
Proof.
  intros Hmem. unfold spdifInterleave.
  destruct (interleave_loop_spec 128 0 mem) as (m & Hl & Hlen & Hin & Hout);
    [lia | lia | done |].
  exists m. split; [done |]. split; [done |]. split.
  - intros j Hj. apply Hin. lia.
  - intros k Hk. apply Hout. lia.
Qed.
End interleave.
(** ** The queues *)

Lemma vec2_eta (q : vec audio_block_ptr 2) : q = [# q !!! slot0; q !!! slot1].
Proof. inv_vec q. reflexivity. Qed.

Lemma switcheroo_empty q audio :
  q !!! slot0 = nullptr →
  switcheroo q audio = ([# audio; q !!! slot1], nullptr).
Proof. inv_vec q. intros p0 p1 Hp. unfold switcheroo. by case_decide. Qed.

Lemma switcheroo_half q audio :
  q !!! slot0 ≠ nullptr → q !!! slot1 = nullptr →
  switcheroo q audio = ([# q !!! slot0; audio], nullptr).
Proof.
  inv_vec q. intros p0 p1 Hp0 Hp1. unfold switcheroo.
  repeat case_decide; done.
Qed.

Lemma switcheroo_full q audio :
  q !!! slot0 ≠ nullptr → q !!! slot1 ≠ nullptr →
  switcheroo q audio = ([# q !!! slot1; audio], q !!! slot0).
Proof.
  inv_vec q. intros p0 p1 Hp0 Hp1. unfold switcheroo.
  repeat case_decide; done.
Qed.

Lemma update_partial l r st :
  ¬ (l ≠ nullptr ∧ r ≠ nullptr) →
  update l r st = emit EnableIrq (emit DisableIrq st).
Proof. intros Hlr. unfold update. repeat case_decide; done. Qed.

Lemma update_both l r st :
  l ≠ nullptr → r ≠ nullptr →
  update l r st =
    let st1 :=
      emit EnableIrq
        (set_rightAudioBuffer (switcheroo (rightAudioBuffer st) r).1
           (set_leftAudioBuffer (switcheroo (leftAudioBuffer st) l).1
              (emit DisableIrq st))) in
    let l' := (switcheroo (leftAudioBuffer st) l).2 in
    let r' := (switcheroo (rightAudioBuffer st) r).2 in
    if decide (l' ≠ nullptr ∧ r' ≠ nullptr)
    then release r' (release l' st1) else st1.
Proof.
  intros Hl Hr. unfold update. case_decide; [| naive_solver].
  cbn [leftAudioBuffer rightAudioBuffer emit set_leftAudioBuffer].
  destruct (switcheroo (leftAudioBuffer st) l) as [ql l'].
  destruct (switcheroo (rightAudioBuffer st) r) as [qr r'].
  reflexivity.
Qed.

(** ** The interrupt handler *)

(** What a firing that returns has done. *)
Lemma dmaISR_inv SADDR st st' :
  dmaISR SADDR st = Some st' →
  let txOffset := isr_txOffset SADDR st in
  ∃ ldata rdata,
    deref_data st (isr_leftAudio st) = Some ldata
    ∧ deref_data st (isr_rightAudio st) = Some rdata
    ∧ spdifInterleave (Z.to_nat txOffset) ldata rdata (fifoTx st)
      = Some (fifoTx st')
    ∧ fifoTx_addr st' = fifoTx_addr st
    ∧ silentAudio st' = silentAudio st
    ∧ pool st' = pool st
    ∧ ((isr_leftAudio st ≠ addr_silentAudio
        ∧ isr_rightAudio st ≠ addr_silentAudio
        ∧ leftAudioBuffer st' = [# leftAudioBuffer st !!! slot1; nullptr]
        ∧ rightAudioBuffer st' = [# rightAudioBuffer st !!! slot1; nullptr]
        ∧ trace st' = trace st ++
            [ClearInterrupt; DcacheFlushDelete txOffset 1024;
             Release (isr_leftAudio st); Release (isr_rightAudio st);
             UpdateAll])
       ∨ (¬ (isr_leftAudio st ≠ addr_silentAudio
             ∧ isr_rightAudio st ≠ addr_silentAudio)
          ∧ leftAudioBuffer st' = leftAudioBuffer st
          ∧ rightAudioBuffer st' = rightAudioBuffer st
          ∧ trace st' = trace st ++
              [ClearInterrupt; DcacheFlushDelete txOffset 1024; UpdateAll])).
Proof.
  intros Hisr txOffset. unfold dmaISR in Hisr.
  change (isr_leftAudio (emit ClearInterrupt st)) with (isr_leftAudio st) in Hisr.
  change (isr_rightAudio (emit ClearInterrupt st)) with (isr_rightAudio st) in Hisr.
  change (deref_data (emit ClearInterrupt st)) with (deref_data st) in Hisr.
  destruct (deref_data st (isr_leftAudio st)) as [ldata |]; [| done].
  destruct (deref_data st (isr_rightAudio st)) as [rdata |]; [| done].
  cbn [mbind option_bind] in Hisr.
  change (fifoTx (emit ClearInterrupt st)) with (fifoTx st) in Hisr.
  fold txOffset in Hisr.
  destruct (spdifInterleave (Z.to_nat txOffset) ldata rdata (fifoTx st))
    as [mem |] eqn:Hmem; [| done].
  cbn [mbind option_bind] in Hisr.
  exists ldata, rdata. split; [done |]. split; [done |].
  case_decide as Hreal; injection Hisr as <-.
  - split; [exact Hmem |]. do 3 (split; [done |]).
    left. destruct Hreal as [Hl Hr]. do 2 (split; [done |]).
    split; [by open_state st |]. split; [by open_state st |].
    cbn. by rewrite <- !app_assoc.
  - split; [exact Hmem |]. do 3 (split; [done |]).
    right. do 3 (split; [done |]).
    cbn. by rewrite <- !app_assoc.
Qed.

(** Stores never change the size of the destination. *)
Lemma put_sample_length pTx k src j mem mem' :
  put_sample pTx k src j mem = Some mem' → length mem' = length mem.
Proof.
  unfold put_sample, store. intros H.
  destruct (src !! j); [| done]. cbn in H.
  case_decide; [| done]. injection H as <-. apply length_insert.
Qed.

Lemma interleave_body_length pTx la ra i mem mem' :
  interleave_body pTx la ra i mem = Some mem' → length mem' = length mem.
Proof.
  unfold interleave_body. intros H.
  repeat match type of H with
  | (put_sample ?p ?k ?s ?j ?m ≫= _) = Some _ =>
      let m' := fresh "m" in
      let Hm := fresh "Hm" in
      destruct (put_sample p k s j m) as [m' |] eqn:Hm; [| done];
      apply put_sample_length in Hm; cbn [mbind option_bind] in H
  end.
  apply put_sample_length in H. congruence.
Qed.

Lemma interleave_loop_length fuel pTx la ra : ∀ i mem mem',
  interleave_loop fuel pTx la ra i mem = Some mem' → length mem' = length mem.
Proof.
  induction fuel as [| fuel IH]; intros i mem mem'; cbn [interleave_loop];
    case_decide; try congruence.
  destruct (interleave_body pTx la ra i mem) as [m |] eqn:Hb; [| done].
  cbn [mbind option_bind]. intros Hl.
  apply IH in Hl. apply interleave_body_length in Hb. congruence.
Qed.

Lemma spdifInterleave_length pTx la ra mem mem' :
  spdifInterleave pTx la ra mem = Some mem' → length mem' = length mem.
Proof. apply interleave_loop_length. Qed.

(** The block at the front of a queue of a well-formed state, or the silent
    block when the queue is empty, can be read. *)
Lemma front_data st (q : vec audio_block_ptr 2) :
  block_ok (silentAudio st) → Forall (pool_ptr st) (vec_to_list q) →
  ∃ d, deref_data st (elvis (q !!! slot0) addr_silentAudio) = Some d
       ∧ length d = 128%nat ∧ Forall is_int16 d.
Proof.
  inv_vec q. intros p0 p1 [Hlen Hrange] Hq.
  apply Forall_cons in Hq as [Hp0 _].
  unfold elvis. cbn. case_decide as Hnull.
  - by exists (data (silentAudio st)).
  - destruct p0 as [| | n]; [done | done |]. cbn in *.
    destruct (pool st !! n) as [b |]; [| done].
    destruct Hp0 as [Hlenb Hrangeb]. by exists (data b).
Qed.

Lemma txOffset_window SADDR st :
  length (fifoTx st) = 512%nat →
  (Z.to_nat (isr_txOffset SADDR st) + 256 ≤ length (fifoTx st))%nat.
Proof.
  intros ->. unfold isr_txOffset.
  destruct (getTxOffset_cases SADDR (wrap_uint32 (fifoTx_addr st)) 1024)
    as [-> | ->]; lia.
Qed.

(** In a well-formed state a firing always returns. *)
Lemma dmaISR_total SADDR st : wf st → ∃ st', dmaISR SADDR st = Some st'.
Proof.
  intros (Hfifo & Hsil & Hleft & Hright). unfold dmaISR.
  destruct (front_data st (leftAudioBuffer st)) as (ld & Hld & Hll & _);
    [done | done |].
  destruct (front_data st (rightAudioBuffer st)) as (rd & Hrd & Hrl & _);
    [done | done |].
  change (deref_data (emit ClearInterrupt st)) with (deref_data st).
  change (isr_leftAudio (emit ClearInterrupt st))
    with (elvis (leftAudioBuffer st !!! slot0) addr_silentAudio).
  change (isr_rightAudio (emit ClearInterrupt st))
    with (elvis (rightAudioBuffer st !!! slot0) addr_silentAudio).
  rewrite Hld, Hrd. cbn [mbind option_bind].
  change (fifoTx (emit ClearInterrupt st)) with (fifoTx st).
  destruct (spdifInterleave_spec
              (Z.to_nat (isr_txOffset SADDR st))
              ld rd Hll Hrl (fifoTx st)) as (mem & Hmem & _).
  { by apply txOffset_window. }
  rewrite Hmem. cbn [mbind option_bind]. eauto.
Qed.

(** ** Well-formedness along a run *)

Lemma pool_ptr_ext st st' p :
  pool st' = pool st → pool_ptr st p → pool_ptr st' p.
Proof. intros Hpool. destruct p; cbn; [done | done |]. by rewrite Hpool. Qed.

Lemma wf_init st0 : length (fifoTx st0) = 512%nat → wf (init st0).
Proof.
  intros Hlen. unfold wf, init. open_state st0. cbn.
  split; [done |]. split.
  - split; [done |]. by apply Forall_replicate.
  - split; repeat constructor.
Qed.

Lemma switcheroo_pool_ptr st q audio :
  Forall (pool_ptr st) (vec_to_list q) → pool_ptr st audio →
  Forall (pool_ptr st) (vec_to_list (switcheroo q audio).1).
Proof.
  inv_vec q. intros p0 p1 Hq Haudio.
  apply Forall_cons in Hq as [Hp0 Hq]. apply Forall_cons in Hq as [Hp1 _].
  unfold switcheroo. repeat case_decide; cbn; repeat constructor; done.
Qed.

Lemma wf_update l r st :
  wf st → pool_ptr st l → pool_ptr st r → wf (update l r st).
Proof.
  intros (Hfifo & Hsil & Hleft & Hright) Hl Hr.
  destruct (decide (l ≠ nullptr ∧ r ≠ nullptr)) as [[Hln Hrn] | Hpart].
  - rewrite update_both by done. cbv zeta.
    pose proof (switcheroo_pool_ptr st _ l Hleft Hl) as Hleft'.
    pose proof (switcheroo_pool_ptr st _ r Hright Hr) as Hright'.
    case_decide; unfold wf; cbn; do 2 (split; [done |]); split; done.
  - rewrite update_partial by done. unfold wf; cbn.
    do 2 (split; [done |]); split; done.
Qed.

Lemma wf_dmaISR SADDR st st' : wf st → dmaISR SADDR st = Some st' → wf st'.
Proof.
  intros (Hfifo & Hsil & Hleft & Hright) Hisr.
  apply dmaISR_inv in Hisr as (ld & rd & Hld & Hrd & Hmem & _ & Hs & Hp & Hq).
  assert (length (fifoTx st') = 512%nat) as Hfifo'.
  { apply spdifInterleave_length in Hmem. congruence. }
  unfold wf. rewrite Hs. split; [done |]. split; [done |].
  revert Hleft Hright.
  rewrite (vec2_eta (leftAudioBuffer st)), (vec2_eta (rightAudioBuffer st)).
  cbn. intros Hleft Hright.
  apply Forall_cons in Hleft as [Hl0 Hleft]. apply Forall_cons in Hleft as [Hl1 _].
  apply Forall_cons in Hright as [Hr0 Hright]. apply Forall_cons in Hright as [Hr1 _].
  destruct Hq as [(_ & _ & -> & -> & _) | (_ & -> & -> & _)].
  - split; repeat constructor; by apply (pool_ptr_ext st).
  - rewrite (vec2_eta (leftAudioBuffer st)), (vec2_eta (rightAudioBuffer st)).
    split; repeat constructor; by apply (pool_ptr_ext st).
Qed.

Lemma event_ok_ext st st' ev :
  pool st' = pool st → event_ok st ev → event_ok st' ev.
Proof.
  intros Hpool. destruct ev as [l r | a]; [| done].
  intros [Hl Hr]. split; by apply (pool_ptr_ext st).
Qed.

Lemma wf_step st ev st' : wf st → event_ok st ev → step st ev = Some st' → wf st'.
Proof.
  intros Hwf Hev Hstep. destruct ev as [l r | a]; cbn in Hstep.
  - injection Hstep as <-. destruct Hev. by apply wf_update.
  - by apply (wf_dmaISR a st).
Qed.

Lemma step_total st ev : wf st → ∃ st', step st ev = Some st'.
Proof.
  intros Hwf. destruct ev as [l r | a]; cbn; [eauto |].
  by apply dmaISR_total.
Qed.

(** * The encoder: what [spdifInterleave] writes *)

Lemma Forall_int16_lookup (src : list Z) i x :
  Forall is_int16 src → src !! i = Some x → is_int16 x.
Proof. intros Hall Hx. by eapply Forall_lookup_1. Qed.

(** C5.  For 128-sample left and right arrays of [int16_t] and a destination
    holding the 256-word window at [pTx], [spdifInterleave] returns, and in
    the memory it returns word [2 i] of the window is left sample [i]
    shifted left by eight bits and word [2 i + 1] is right sample [i]
    shifted left by eight bits, for every [i] below 128, with no rounding
    or clamping; the destination keeps its size and its words outside the
    window. *)
Theorem spdifInterleave_interleaves (pTx : nat) (la ra mem : list Z) :
  length la = 128%nat → length ra = 128%nat →
  Forall is_int16 la → Forall is_int16 ra →
  (pTx + 256 ≤ length mem)%nat →
  ∃ mem', spdifInterleave pTx la ra mem = Some mem'
    ∧ length mem' = length mem
    ∧ (∀ i, (i < 128)%nat →
         ∃ l r, la !! i = Some l ∧ ra !! i = Some r
           ∧ mem' !! (pTx + 2 * i)%nat = Some (Z.shiftl l 8)
           ∧ mem' !! (pTx + 2 * i + 1)%nat = Some (Z.shiftl r 8))
    ∧ (∀ k, (k < pTx ∨ pTx + 256 ≤ k)%nat → mem' !! k = mem !! k).
Proof.
  intros Hla Hra Hl16 Hr16 Hmem.
  destruct (spdifInterleave_spec pTx la ra Hla Hra mem Hmem)
    as (mem' & Hrun & Hlen & Hin & Hout).
  exists mem'. split; [done |]. split; [done |]. split; [| done].
  intros i Hi.
  destruct (sample_at la i Hla Hi) as [l Hl].
  destruct (sample_at ra i Hra Hi) as [r Hr].
  exists l, r. split; [done |]. split; [done |].
  destruct (Hin i Hi) as [Hev Hod]. rewrite Hev, Hod, Hl, Hr. cbn.
  rewrite (shl8_int16 l) by exact (Forall_int16_lookup la i l Hl16 Hl).
  rewrite (shl8_int16 r) by exact (Forall_int16_lookup ra i r Hr16 Hr).
  done.
Qed.

Lemma spdifInterleave_interleaves_witness :
  ∃ mem', spdifInterleave 256 (data (ramp (-32768))) (data (ramp 32640))
            (replicate 512 0) = Some mem'
    ∧ length mem' = length (replicate 512 0 : list Z)
    ∧ (∀ i, (i < 128)%nat →
         ∃ l r, data (ramp (-32768)) !! i = Some l
           ∧ data (ramp 32640) !! i = Some r
           ∧ mem' !! (256 + 2 * i)%nat = Some (Z.shiftl l 8)
           ∧ mem' !! (256 + 2 * i + 1)%nat = Some (Z.shiftl r 8))
    ∧ (∀ k, (k < 256 ∨ 256 + 256 ≤ k)%nat →
         mem' !! k = (replicate 512 0 : list Z) !! k).
Proof.
  apply (spdifInterleave_interleaves 256 (data (ramp (-32768)))
           (data (ramp 32640)) (replicate 512 0)).
  - reflexivity.
  - reflexivity.
  - compute_done.
  - compute_done.
  - vm_compute. lia.
Defined.

(** C6.  Round trip: for 128-sample arrays over the whole [int16_t] range,
    decoding the words [spdifInterleave] produced, by an arithmetic shift
    right of eight bits, gives back the left and the right samples. *)
Theorem spdifInterleave_roundtrip (pTx : nat) (la ra mem : list Z) :
  length la = 128%nat → length ra = 128%nat →
  Forall is_int16 la → Forall is_int16 ra →
  (pTx + 256 ≤ length mem)%nat →
  ∃ mem', spdifInterleave pTx la ra mem = Some mem'
    ∧ ∀ i, (i < 128)%nat →
        decode <$> mem' !! (pTx + 2 * i)%nat = la !! i
        ∧ decode <$> mem' !! (pTx + 2 * i + 1)%nat = ra !! i.
Proof.
  intros Hla Hra Hl16 Hr16 Hmem.
  destruct (spdifInterleave_spec pTx la ra Hla Hra mem Hmem)
    as (mem' & Hrun & _ & Hin & _).
  exists mem'. split; [done |]. intros i Hi.
  destruct (sample_at la i Hla Hi) as [l Hl].
  destruct (sample_at ra i Hra Hi) as [r Hr].
  destruct (Hin i Hi) as [Hev Hod]. rewrite Hev, Hod, Hl, Hr. cbn.
  unfold decode.
  rewrite (shiftr_shl8 l) by exact (Forall_int16_lookup la i l Hl16 Hl).
  rewrite (shiftr_shl8 r) by exact (Forall_int16_lookup ra i r Hr16 Hr).
  done.
Qed.

Lemma spdifInterleave_roundtrip_witness :
  ∃ mem', spdifInterleave 0 (data (ramp (-32768))) (data (ramp 32640))
            (replicate 512 0) = Some mem'
    ∧ ∀ i, (i < 128)%nat →
        decode <$> mem' !! (0 + 2 * i)%nat = data (ramp (-32768)) !! i
        ∧ decode <$> mem' !! (0 + 2 * i + 1)%nat = data (ramp 32640) !! i.
Proof.
  apply (spdifInterleave_roundtrip 0 (data (ramp (-32768)))
           (data (ramp 32640)) (replicate 512 0)).
  - reflexivity.
  - reflexivity.
  - compute_done.
  - compute_done.
  - vm_compute. lia.
Defined.

(** * The geometry: which half [getTxOffset] selects *)

(** C4, as the code has it.  For a buffer of 2048 bytes at [base] and an
    engine address inside it, [getTxOffset] selects the half the engine is
    not reading: an address in the first 1024 bytes gives [0x0100], the
    second half; an address from the midpoint [base + 1024] on gives
    [0x0000], the first half.  The midpoint address itself is the first
    address of the second half and gives [0x0000]. *)
Theorem getTxOffset_other_half (base SADDR : Z) :
  0 <= base → base + 2048 <= 2 ^ 32 → base <= SADDR < base + 2048 →
  (SADDR < base + 1024 → getTxOffset SADDR base 1024 = 0x0100)
  ∧ (base + 1024 <= SADDR → getTxOffset SADDR base 1024 = 0x0000)
  ∧ ¬ (getTxOffset SADDR base 1024 <= word_at base SADDR
       < getTxOffset SADDR base 1024 + 256).
Proof.
  intros Hbase Hfit Hin.
  split; [| split].
  - intros Hlow. apply getTxOffset_lower; lia.
  - intros Hup. apply getTxOffset_upper; lia.
  - unfold word_at. destruct (decide (SADDR < base + 1024)) as [Hlow | Hup].
    + rewrite getTxOffset_lower by lia.
      assert ((SADDR - base) / 4 < 256) by (apply Z.div_lt_upper_bound; lia).
      lia.
    + rewrite getTxOffset_upper by lia.
      assert (256 <= (SADDR - base) / 4) by (apply Z.div_le_lower_bound; lia).
      lia.
Qed.

Lemma getTxOffset_other_half_witness :
  getTxOffset (demo_base + 1024) demo_base 1024 = 0x0000.
Proof.
  apply (getTxOffset_other_half demo_base (demo_base + 1024));
    unfold demo_base; lia.
Defined.

(** C4 at the midpoint: the address [base + 1024] is that of word 256, the
    first word of the second half, and the offset computed there is
    [0x0000], that of the first half, not [0x0100]. *)
Lemma getTxOffset_midpoint_counterexample :
  word_at 0x20200000 (0x20200000 + 1024) = 256
  ∧ getTxOffset (0x20200000 + 1024) 0x20200000 1024 = 0x0000
  ∧ getTxOffset (0x20200000 + 1024) 0x20200000 1024 ≠ 0x0100.
Proof. split; [reflexivity |]. split; [reflexivity | discriminate]. Qed.

(** * The interrupt handler and the queues *)

Lemma elvis_real p : p ≠ nullptr → elvis p addr_silentAudio = p.
Proof. intros Hp. unfold elvis. by case_decide. Qed.

Lemma elvis_null : elvis nullptr addr_silentAudio = addr_silentAudio.
Proof. reflexivity. Qed.

Lemma pool_ptr_front st (q : vec audio_block_ptr 2) :
  Forall (pool_ptr st) (vec_to_list q) → q !!! slot0 ≠ addr_silentAudio.
Proof.
  inv_vec q. intros p0 p1 Hq. apply Forall_cons in Hq as [Hp0 _].
  cbn. by intros ->.
Qed.

Lemma releases_app tr1 tr2 : releases (tr1 ++ tr2) = releases tr1 ++ releases tr2.
Proof.
  induction tr1 as [| e tr1 IH]; [done |].
  destruct e; cbn; by rewrite ?IH.
Qed.

(** C1.  In a well-formed state whose two queues both have a block at slot
    0, a firing of [dmaISR] returns; it has released exactly those two
    blocks, the left one then the right one, and has rotated both queues by
    one: slot 0 holds what slot 1 held and slot 1 is empty. *)
Theorem dmaISR_releases_and_rotates (SADDR : Z) (st : SpdifTx) :
  wf st →
  leftAudioBuffer st !!! slot0 ≠ nullptr →
  rightAudioBuffer st !!! slot0 ≠ nullptr →
  ∃ st', dmaISR SADDR st = Some st'
    ∧ releases (trace st') =
        releases (trace st)
        ++ [leftAudioBuffer st !!! slot0; rightAudioBuffer st !!! slot0]
    ∧ leftAudioBuffer st' = [# leftAudioBuffer st !!! slot1; nullptr]
    ∧ rightAudioBuffer st' = [# rightAudioBuffer st !!! slot1; nullptr].
Proof.
  intros Hwf Hl Hr.
  destruct (dmaISR_total SADDR st Hwf) as [st' Hisr].
  exists st'. split; [done |].
  destruct Hwf as (_ & _ & Hleft & Hright).
  apply dmaISR_inv in Hisr as (ld & rd & _ & _ & _ & _ & _ & _ & Hq).
  unfold isr_leftAudio, isr_rightAudio in Hq.
  rewrite !elvis_real in Hq by done.
  destruct Hq as [(_ & _ & Hql & Hqr & Htr) | (Hsilent & _)].
  - rewrite Htr, releases_app. done.
  - exfalso. apply Hsilent. split; by eapply pool_ptr_front.
Qed.

Lemma dmaISR_releases_and_rotates_witness :
  ∃ st', dmaISR (demo_base + 1024) demo_full = Some st'
    ∧ releases (trace st') = releases (trace demo_full) ++ [L1; R1]
    ∧ leftAudioBuffer st' = [# L2; nullptr]
    ∧ rightAudioBuffer st' = [# R2; nullptr].
Proof.
  apply (dmaISR_releases_and_rotates (demo_base + 1024) demo_full).
  - compute_done.
  - compute_done.
  - compute_done.
Defined.

(** C3.  In a well-formed state a firing of [dmaISR] returns, and:
    the encoder ran on the blocks [isr_leftAudio] and [isr_rightAudio], which
    for a channel whose slot 0 is empty is [silentAudio]; [silentAudio] is
    not among the blocks the firing released; and when either channel's
    consumed block is [silentAudio], the firing released nothing and left
    both queues as they were. *)
Theorem dmaISR_silence (SADDR : Z) (st : SpdifTx) :
  wf st →
  ∃ st' ldata rdata,
    dmaISR SADDR st = Some st'
    ∧ deref_data st (isr_leftAudio st) = Some ldata
    ∧ deref_data st (isr_rightAudio st) = Some rdata
    ∧ spdifInterleave
        (Z.to_nat (isr_txOffset SADDR st))
        ldata rdata (fifoTx st) = Some (fifoTx st')
    ∧ (leftAudioBuffer st !!! slot0 = nullptr →
         isr_leftAudio st = addr_silentAudio ∧ ldata = data (silentAudio st))
    ∧ (rightAudioBuffer st !!! slot0 = nullptr →
         isr_rightAudio st = addr_silentAudio ∧ rdata = data (silentAudio st))
    ∧ (∃ rel, releases (trace st') = releases (trace st) ++ rel
              ∧ addr_silentAudio ∉ rel)
    ∧ (isr_leftAudio st = addr_silentAudio
       ∨ isr_rightAudio st = addr_silentAudio →
         releases (trace st') = releases (trace st)
         ∧ leftAudioBuffer st' = leftAudioBuffer st
         ∧ rightAudioBuffer st' = rightAudioBuffer st).
Proof.
  intros Hwf.
  destruct (dmaISR_total SADDR st Hwf) as [st' Hisr].
  pose proof (dmaISR_inv _ _ _ Hisr)
    as (ld & rd & Hld & Hrd & Hmem & _ & _ & _ & Hq).
  exists st', ld, rd. do 4 (split; [done |]).
  split; [| split; [| split]].
  - intros Hnull. unfold isr_leftAudio in *. rewrite Hnull in *.
    split; [done |]. rewrite elvis_null in Hld. cbn in Hld. congruence.
  - intros Hnull. unfold isr_rightAudio in *. rewrite Hnull in *.
    split; [done |]. rewrite elvis_null in Hrd. cbn in Hrd. congruence.
  - destruct Hq as [(Hl & Hr & _ & _ & Htr) | (_ & _ & _ & Htr)].
    + exists [isr_leftAudio st; isr_rightAudio st].
      rewrite Htr, releases_app. split; [done |].
      rewrite !elem_of_cons, elem_of_nil. intros [Heq | [Heq | []]]; congruence.
    + exists []. rewrite Htr, releases_app. split; [done |]. apply not_elem_of_nil.
  - intros Hsilent.
    destruct Hq as [(Hl & Hr & _) | (_ & Hql & Hqr & Htr)];
      [by destruct Hsilent |].
    rewrite Htr, releases_app. cbn. by rewrite app_nil_r.
Qed.

Lemma dmaISR_silence_witness :
  ∃ st' ldata rdata,
    dmaISR demo_base demo_left_only = Some st'
    ∧ deref_data demo_left_only (isr_leftAudio demo_left_only) = Some ldata
    ∧ deref_data demo_left_only (isr_rightAudio demo_left_only) = Some rdata
    ∧ spdifInterleave
        (Z.to_nat (isr_txOffset demo_base demo_left_only))
        ldata rdata (fifoTx demo_left_only) = Some (fifoTx st')
    ∧ (leftAudioBuffer demo_left_only !!! slot0 = nullptr →
         isr_leftAudio demo_left_only = addr_silentAudio
         ∧ ldata = data (silentAudio demo_left_only))
    ∧ (rightAudioBuffer demo_left_only !!! slot0 = nullptr →
         isr_rightAudio demo_left_only = addr_silentAudio
         ∧ rdata = data (silentAudio demo_left_only))
    ∧ (∃ rel, releases (trace st') = releases (trace demo_left_only) ++ rel
              ∧ addr_silentAudio ∉ rel)
    ∧ (isr_leftAudio demo_left_only = addr_silentAudio
       ∨ isr_rightAudio demo_left_only = addr_silentAudio →
         releases (trace st') = releases (trace demo_left_only)
         ∧ leftAudioBuffer st' = leftAudioBuffer demo_left_only
         ∧ rightAudioBuffer st' = rightAudioBuffer demo_left_only).
Proof.
  apply (dmaISR_silence demo_base demo_left_only). compute_done.
Defined.

(** ** Invariants along a run *)

(** A property kept by every step holds at the end of every run. *)
Lemma run_invariant (P : SpdifTx → Prop) :
  (∀ st ev st', P st → step st ev = Some st' → P st') →
  ∀ evs st st', P st → run st evs = Some st' → P st'.
Proof.
  intros Hstep. induction evs as [| ev evs IH]; intros st st' HP Hrun.
  - cbn in Hrun. by injection Hrun as <-.
  - cbn in Hrun. destruct (step st ev) as [st1 |] eqn:H1; [| done].
    cbn in Hrun. eapply IH; [| done]. by eapply Hstep.
Qed.

Lemma pool_step st ev st' : step st ev = Some st' → pool st' = pool st.
Proof.
  destruct ev as [l r | a]; cbn; intros Hstep.
  - injection Hstep as <-.
    destruct (decide (l ≠ nullptr ∧ r ≠ nullptr)) as [[Hl Hr] | Hpart].
    + rewrite update_both by done. cbv zeta. by case_decide.
    + by rewrite update_partial.
  - by apply dmaISR_inv in Hstep as (_ & _ & _ & _ & _ & _ & _ & Hp & _).
Qed.

(** With a well-behaved environment every run from a well-formed state is
    defined, and ends in a well-formed state. *)
Lemma run_total evs : ∀ st,
  wf st → Forall (event_ok st) evs →
  ∃ st', run st evs = Some st' ∧ wf st'.
Proof.
  induction evs as [| ev evs IH]; intros st Hwf Hevs; [by exists st |].
  apply Forall_cons in Hevs as [Hev Hevs].
  destruct (step_total st ev Hwf) as [st1 Hstep].
  cbn. rewrite Hstep. cbn. apply IH.
  - by eapply wf_step.
  - eapply Forall_impl; [done |]. intros ev'.
    apply event_ok_ext. by eapply pool_step.
Qed.

(** ** The order inside a queue *)

Lemma queue_ordered_switcheroo q audio :
  audio ≠ nullptr → queue_ordered (switcheroo q audio).1.
Proof.
  inv_vec q. intros p0 p1 Haudio. unfold switcheroo, queue_ordered.
  repeat case_decide; cbn in *; congruence.
Qed.

Lemma queues_ordered_init st0 : queues_ordered (init st0).
Proof. split; by open_state st0. Qed.

Lemma queues_ordered_update l r st :
  queues_ordered st → queues_ordered (update l r st).
Proof.
  intros Hord.
  destruct (decide (l ≠ nullptr ∧ r ≠ nullptr)) as [[Hl Hr] | Hpart].
  - rewrite update_both by done. cbv zeta.
    case_decide; split; cbn; by apply queue_ordered_switcheroo.
  - by rewrite update_partial.
Qed.

Lemma queues_ordered_dmaISR SADDR st st' :
  queues_ordered st → dmaISR SADDR st = Some st' → queues_ordered st'.
Proof.
  intros [Hl Hr] Hisr. unfold queues_ordered.
  apply dmaISR_inv in Hisr as (_ & _ & _ & _ & _ & _ & _ & _ & Hq).
  destruct Hq as [(_ & _ & -> & -> & _) | (_ & -> & -> & _)]; [| done].
  split; by intros _.
Qed.

(** C8.  Slot 0 empty implies slot 1 empty, in both queues: this holds when
    [init] returns, every [update] call keeps it, every firing of [dmaISR]
    keeps it, and so it holds at the end of every run that starts with
    [init]; with 512 words of [fifoTx] and an environment that hands in
    pool blocks, each such run is defined. *)
Theorem queues_ordered_invariant :
  (∀ st0, queues_ordered (init st0))
  ∧ (∀ l r st, queues_ordered st → queues_ordered (update l r st))
  ∧ (∀ SADDR st st',
       queues_ordered st → dmaISR SADDR st = Some st' → queues_ordered st')
  ∧ (∀ st0 evs st,
       run (init st0) evs = Some st → queues_ordered st)
  ∧ (∀ st0 evs,
       length (fifoTx st0) = 512%nat → Forall (event_ok st0) evs →
       ∃ st, run (init st0) evs = Some st ∧ queues_ordered st).
Proof.
  assert (∀ st0 evs st, run (init st0) evs = Some st → queues_ordered st)
    as Hrun.
  { intros st0 evs st. apply run_invariant; [| apply queues_ordered_init].
    intros s ev s' Hs Hstep. destruct ev as [l r | a]; cbn in Hstep.
    - injection Hstep as <-. by apply queues_ordered_update.
    - by eapply queues_ordered_dmaISR. }
  split; [apply queues_ordered_init |].
  split; [apply queues_ordered_update |].
  split; [apply queues_ordered_dmaISR |].
  split; [done |].
  intros st0 evs Hfifo Hevs.
  destruct (run_total evs (init st0)) as (st & Hst & _).
  - by apply wf_init.
  - eapply Forall_impl; [done |]. intros ev. apply event_ok_ext.
    by open_state st0.
  - exists st. split; [done |]. by eapply Hrun.
Qed.

Lemma queues_ordered_invariant_witness :
  queues_ordered demo_empty
  ∧ queues_ordered (update L3 R3 demo_full)
  ∧ (∃ st, run (init (boot demo_base demo_pool))
             [EvUpdate L1 R1; EvDmaISR demo_base; EvUpdate L2 nullptr;
              EvDmaISR (demo_base + 1024)] = Some st
           ∧ queues_ordered st).
Proof.
  destruct queues_ordered_invariant as (Hinit & Hupd & _ & _ & Hrun).
  split; [apply Hinit |].
  split; [apply Hupd; compute_done |].
  apply Hrun; compute_done.
Defined.

(** ** Equal occupancy of the two queues *)

Lemma occupancy_full (q : vec audio_block_ptr 2) :
  occupancy q = 2%nat ↔ q !!! slot0 ≠ nullptr ∧ q !!! slot1 ≠ nullptr.
Proof.
  inv_vec q. intros p0 p1. unfold occupancy. cbn.
  repeat case_decide; cbn; split; intros Hq; try done; destruct Hq; done.
Qed.

Lemma occupancy_le_2 (q : vec audio_block_ptr 2) : (occupancy q ≤ 2)%nat.
Proof.
  unfold occupancy.
  etransitivity; [apply length_filter |]. by rewrite length_vec_to_list.
Qed.

Lemma lockstep_occupancy st :
  lockstep st →
  occupancy (leftAudioBuffer st) = occupancy (rightAudioBuffer st).
Proof.
  unfold lockstep, occupancy.
  destruct st as [a f s ql qr p t]. inv_vec ql; intros l0 l1.
  inv_vec qr; intros r0 r1. cbn. intros [H0 H1].
  destruct (decide (l0 = nullptr)), (decide (l1 = nullptr)),
    (decide (r0 = nullptr)), (decide (r1 = nullptr));
    repeat case_decide; first [done | tauto].
Qed.

Lemma lockstep_init st0 : lockstep (init st0).
Proof. by open_state st0. Qed.

Lemma lockstep_update l r st : lockstep st → lockstep (update l r st).
Proof.
  intros [H0 H1].
  destruct (decide (l ≠ nullptr ∧ r ≠ nullptr)) as [[Hl Hr] | Hpart].
  - rewrite update_both by done. cbv zeta.
    assert (lockstep
              (set_rightAudioBuffer (switcheroo (rightAudioBuffer st) r).1
                 (set_leftAudioBuffer (switcheroo (leftAudioBuffer st) l).1 st)))
      as Hgoal; [| by case_decide].
    unfold lockstep. cbn.
    destruct (decide (leftAudioBuffer st !!! slot0 = nullptr)) as [HL0 | HL0].
    { rewrite !switcheroo_empty by tauto. cbn. tauto. }
    destruct (decide (leftAudioBuffer st !!! slot1 = nullptr)) as [HL1 | HL1].
    { rewrite !switcheroo_half by tauto. cbn. tauto. }
    rewrite !switcheroo_full by tauto. cbn. tauto.
  - by rewrite update_partial.
Qed.

Lemma lockstep_dmaISR SADDR st st' :
  lockstep st → dmaISR SADDR st = Some st' → lockstep st'.
Proof.
  intros [H0 H1] Hisr. unfold lockstep.
  apply dmaISR_inv in Hisr as (_ & _ & _ & _ & _ & _ & _ & _ & Hq).
  destruct Hq as [(_ & _ & -> & -> & _) | (_ & -> & -> & _)]; [| done].
  done.
Qed.

Lemma lockstep_run st0 evs st : run (init st0) evs = Some st → lockstep st.
Proof.
  apply run_invariant; [| apply lockstep_init].
  intros s ev s' Hs Hstep. destruct ev as [l r | a]; cbn in Hstep.
  - injection Hstep as <-. by apply lockstep_update.
  - by eapply lockstep_dmaISR.
Qed.

(** * The producer *)

(** C2.  At the end of every run that starts with [init], an [update] call
    leaves at most two occupied slots in each queue; and when it brings two
    blocks while the queue is full, it moves slot 1 into slot 0, puts the
    new block into slot 1, and releases the two blocks that were at slot 0,
    one per channel, after interrupts are enabled again, and nothing else. *)
Theorem update_overrun (st0 : SpdifTx) (evs : list event) (st : SpdifTx)
    (l r : audio_block_ptr) :
  run (init st0) evs = Some st →
  ((occupancy (leftAudioBuffer (update l r st)) ≤ 2)%nat
   ∧ (occupancy (rightAudioBuffer (update l r st)) ≤ 2)%nat)
  ∧ (l ≠ nullptr → r ≠ nullptr →
     occupancy (leftAudioBuffer st) = 2%nat
     ∨ occupancy (rightAudioBuffer st) = 2%nat →
       leftAudioBuffer (update l r st) = [# leftAudioBuffer st !!! slot1; l]
       ∧ rightAudioBuffer (update l r st)
         = [# rightAudioBuffer st !!! slot1; r]
       ∧ trace (update l r st) =
           trace st ++ [DisableIrq; EnableIrq;
                        Release (leftAudioBuffer st !!! slot0);
                        Release (rightAudioBuffer st !!! slot0)]).
Proof.
  intros Hrun. split; [split; apply occupancy_le_2 |].
  intros Hl Hr Hfull.
  pose proof (lockstep_run _ _ _ Hrun) as Hlock.
  pose proof (lockstep_occupancy st Hlock) as Hocc.
  assert (occupancy (leftAudioBuffer st) = 2%nat) as HL
    by (destruct Hfull; congruence).
  assert (occupancy (rightAudioBuffer st) = 2%nat) as HR by congruence.
  apply occupancy_full in HL as [HL0 HL1].
  apply occupancy_full in HR as [HR0 HR1].
  rewrite update_both by done. cbv zeta.
  rewrite !switcheroo_full by done. cbn [fst snd].
  case_decide as Hrel; [| by destruct Hrel].
  split; [done |]. split; [done |].
  cbn. by rewrite <- !app_assoc.
Qed.

Lemma update_overrun_witness :
  ((occupancy (leftAudioBuffer (update L3 R3 demo_full)) ≤ 2)%nat
   ∧ (occupancy (rightAudioBuffer (update L3 R3 demo_full)) ≤ 2)%nat)
  ∧ leftAudioBuffer (update L3 R3 demo_full) = [# L2; L3]
  ∧ rightAudioBuffer (update L3 R3 demo_full) = [# R2; R3]
  ∧ trace (update L3 R3 demo_full) =
      trace demo_full ++ [DisableIrq; EnableIrq; Release L1; Release R1].
Proof.
  destruct (update_overrun (boot demo_base demo_pool)
              [EvUpdate L1 R1; EvUpdate L2 R2] demo_full L3 R3)
    as [Hocc Hfull].
  - compute_done.
  - split; [exact Hocc |]. apply Hfull.
    + discriminate.
    + discriminate.
    + left. compute_done.
Defined.

(** C7.  A block delivered on one channel only is neither queued nor
    released by [update]: whatever the state, a call with a left block and
    no right block, or with a right block and no left block, leaves both
    queues as they were and calls [release] on nothing.  From the empty
    queues, [update] called with the left block [L1] alone leaves both
    queues empty and its whole trace is [DisableIrq; EnableIrq]. *)
Theorem update_partial_delivery_drops_block :
  (∀ st l,
     leftAudioBuffer (update l nullptr st) = leftAudioBuffer st
     ∧ rightAudioBuffer (update l nullptr st) = rightAudioBuffer st
     ∧ releases (trace (update l nullptr st)) = releases (trace st))
  ∧ (∀ st r,
       leftAudioBuffer (update nullptr r st) = leftAudioBuffer st
       ∧ rightAudioBuffer (update nullptr r st) = rightAudioBuffer st
       ∧ releases (trace (update nullptr r st)) = releases (trace st))
  ∧ leftAudioBuffer (update L1 nullptr demo_empty) = [# nullptr; nullptr]
  ∧ rightAudioBuffer (update L1 nullptr demo_empty) = [# nullptr; nullptr]
  ∧ trace (update L1 nullptr demo_empty) = [DisableIrq; EnableIrq]
  ∧ L1 ∉ releases (trace (update L1 nullptr demo_empty)).
Proof.
  split; [| split].
  - intros st l. rewrite update_partial by tauto.
    do 2 (split; [done |]). cbn. rewrite !releases_app. cbn.
    by rewrite !app_nil_r.
  - intros st r. rewrite update_partial by tauto.
    do 2 (split; [done |]). cbn. rewrite !releases_app. cbn.
    by rewrite !app_nil_r.
  - split; [compute_done |]. split; [compute_done |]. split; [compute_done |].
    replace (releases (trace (update L1 nullptr demo_empty)))
      with (@nil audio_block_ptr) by compute_done.
    apply not_elem_of_nil.
Qed.

(** * Writes of the handler into [fifoTx] *)

(** C10.  In a well-formed state a firing of [dmaISR] returns, so each of
    its stores into [fifoTx] is in bounds; the offset [getTxOffset] gave it
    is [0x0000] or [0x0100]; the 256-word window at that offset lies inside
    the 512 words of [fifoTx] and holds the encoded samples afterwards; and
    every word of [fifoTx] outside that window, so all of the other half,
    is as it was. *)
Theorem dmaISR_writes_one_half (SADDR : Z) (st : SpdifTx) :
  wf st →
  (isr_txOffset SADDR st = 0x0000
   ∨ isr_txOffset SADDR st = 0x0100)
  ∧ ∃ st' ldata rdata,
      dmaISR SADDR st = Some st'
      ∧ deref_data st (isr_leftAudio st) = Some ldata
      ∧ deref_data st (isr_rightAudio st) = Some rdata
      ∧ length (fifoTx st') = 512%nat
      ∧ (Z.to_nat (isr_txOffset SADDR st)
         + 256 ≤ 512)%nat
      ∧ (∀ i, (i < 128)%nat →
           fifoTx st' !! (Z.to_nat (isr_txOffset SADDR st)
                          + 2 * i)%nat
             = shl8 <$> ldata !! i
           ∧ fifoTx st' !! (Z.to_nat (isr_txOffset SADDR st)
                            + 2 * i + 1)%nat
               = shl8 <$> rdata !! i)
      ∧ (∀ k,
           (k < Z.to_nat (isr_txOffset SADDR st)
            ∨ Z.to_nat (isr_txOffset SADDR st) + 256 ≤ k)%nat →
           fifoTx st' !! k = fifoTx st !! k).
Proof.
  intros Hwf. split; [apply getTxOffset_cases |].
  destruct (dmaISR_total SADDR st Hwf) as [st' Hisr].
  pose proof (dmaISR_inv _ _ _ Hisr)
    as (ld & rd & Hld & Hrd & Hmem & _).
  destruct Hwf as (Hfifo & Hsil & Hleft & Hright).
  destruct (front_data st (leftAudioBuffer st) Hsil Hleft)
    as (ld' & Hld' & Hll & _).
  destruct (front_data st (rightAudioBuffer st) Hsil Hright)
    as (rd' & Hrd' & Hrl & _).
  unfold isr_leftAudio, isr_rightAudio in *.
  assert (ld' = ld) as -> by congruence.
  assert (rd' = rd) as -> by congruence.
  pose proof (txOffset_window SADDR st Hfifo) as Hwin.
  destruct (spdifInterleave_spec _ ld rd Hll Hrl (fifoTx st) Hwin)
    as (mem & Hm & Hlen & Hin & Hout).
  assert (mem = fifoTx st') as -> by congruence.
  exists st', ld, rd. do 3 (split; [done |]).
  split; [congruence |]. split; [by rewrite <- Hfifo |]. done.
Qed.

Lemma dmaISR_writes_one_half_witness :
  (isr_txOffset demo_base demo_full = 0x0000
   ∨ isr_txOffset demo_base demo_full = 0x0100)
  ∧ ∃ st' ldata rdata,
      dmaISR demo_base demo_full = Some st'
      ∧ deref_data demo_full (isr_leftAudio demo_full) = Some ldata
      ∧ deref_data demo_full (isr_rightAudio demo_full) = Some rdata
      ∧ length (fifoTx st') = 512%nat
      ∧ (Z.to_nat (isr_txOffset demo_base demo_full)
         + 256 ≤ 512)%nat
      ∧ (∀ i, (i < 128)%nat →
           fifoTx st' !! (Z.to_nat (isr_txOffset demo_base demo_full)
                          + 2 * i)%nat
             = shl8 <$> ldata !! i
           ∧ fifoTx st' !! (Z.to_nat (isr_txOffset demo_base demo_full)
                            + 2 * i + 1)%nat
               = shl8 <$> rdata !! i)
      ∧ (∀ k,
           (k < Z.to_nat (isr_txOffset demo_base demo_full)
            ∨ Z.to_nat (isr_txOffset demo_base demo_full) + 256 ≤ k)%nat →
           fifoTx st' !! k = fifoTx demo_full !! k).
Proof.
  apply (dmaISR_writes_one_half demo_base demo_full). compute_done.
Defined.

(** * Lockstep and first-in first-out order *)

Lemma isr_releases_app b tr1 tr2 :
  isr_releases b (tr1 ++ tr2)
  = isr_releases b tr1 ++ isr_releases (foldl in_handler b tr1) tr2.
Proof.
  revert b. induction tr1 as [| e tr1 IH]; intros b; [done |].
  cbn. by rewrite IH, app_assoc.
Qed.

Lemma pending_vec2 (a b : audio_block_ptr) :
  pending [# a; b]
  = (if decide (a ≠ nullptr) then [a] else [])
    ++ (if decide (b ≠ nullptr) then [b] else []).
Proof. unfold pending. cbn. by repeat case_decide. Qed.

Lemma pending_empty q :
  queue_ordered q → q !!! slot0 = nullptr → pending q = [].
Proof.
  inv_vec q. intros p0 p1. rewrite pending_vec2. unfold queue_ordered. cbn.
  intros Hord Hp0. specialize (Hord Hp0). subst. by rewrite !decide_False by tauto.
Qed.

Lemma pending_half q :
  q !!! slot0 ≠ nullptr → q !!! slot1 = nullptr → pending q = [q !!! slot0].
Proof.
  inv_vec q. intros p0 p1. rewrite pending_vec2. cbn.
  intros Hp0 Hp1. subst. by rewrite decide_True, decide_False by tauto.
Qed.

Lemma pending_full q :
  q !!! slot0 ≠ nullptr → q !!! slot1 ≠ nullptr →
  pending q = [q !!! slot0; q !!! slot1].
Proof.
  inv_vec q. intros p0 p1. rewrite pending_vec2. cbn.
  intros Hp0 Hp1. by rewrite !decide_True.
Qed.


Lemma snoc2 {A} (cs : list A) (a b : A) : cs ++ [a; b] = (cs ++ [a]) ++ [b].
Proof. by rewrite <- app_assoc. Qed.

Lemma left_right_app cs1 cs2 :
  left_right (cs1 ++ cs2) = left_right cs1 ++ left_right cs2.
Proof. unfold left_right. apply bind_app. Qed.

Lemma fifo_inv_init addr blocks : fifo_inv (init (boot addr blocks)) [].
Proof.
  split; [done |]. split; [apply lockstep_init |].
  split; [apply queues_ordered_init |]. by exists [].
Qed.

(** The queues and the trace after an [update] call that brought two
    blocks. *)
Lemma update_both_fields l r st :
  l ≠ nullptr → r ≠ nullptr →
  leftAudioBuffer (update l r st) = (switcheroo (leftAudioBuffer st) l).1
  ∧ rightAudioBuffer (update l r st) = (switcheroo (rightAudioBuffer st) r).1
  ∧ trace (update l r st) =
      trace st ++ [DisableIrq; EnableIrq]
      ++ (if decide ((switcheroo (leftAudioBuffer st) l).2 ≠ nullptr
                     ∧ (switcheroo (rightAudioBuffer st) r).2 ≠ nullptr)
          then [Release (switcheroo (leftAudioBuffer st) l).2;
                Release (switcheroo (rightAudioBuffer st) r).2]
          else []).
Proof.
  intros Hl Hr. rewrite update_both by done. cbv zeta.
  case_decide; (split; [done |]); (split; [done |]); cbn;
    by rewrite <- !app_assoc.
Qed.

Lemma update_partial_fields l r st :
  ¬ (l ≠ nullptr ∧ r ≠ nullptr) →
  leftAudioBuffer (update l r st) = leftAudioBuffer st
  ∧ rightAudioBuffer (update l r st) = rightAudioBuffer st
  ∧ trace (update l r st) = trace st ++ [DisableIrq; EnableIrq].
Proof.
  intros Hpart. rewrite update_partial by done.
  split; [done |]. split; [done |]. cbn. by rewrite <- !app_assoc.
Qed.

Lemma fifo_inv_update l r st acc :
  fifo_inv st acc →
  fifo_inv (update l r st) (acc ++ accepted_by (EvUpdate l r)).
Proof.
  intros (Hmode & Hlock & Hord & cs & Hcs & Hsub).
  split; [| split; [by apply lockstep_update |
                    split; [by apply queues_ordered_update |]]].
  { destruct (decide (l ≠ nullptr ∧ r ≠ nullptr)) as [[Hl Hr] | Hpart].
    - destruct (update_both_fields l r st Hl Hr) as (_ & _ & ->).
      rewrite foldl_app, Hmode. by case_decide.
    - destruct (update_partial_fields l r st Hpart) as (_ & _ & ->).
      by rewrite foldl_app, Hmode. }
  exists cs. cbn [accepted_by]. unfold pending_pairs in *.
  destruct (decide (l ≠ nullptr ∧ r ≠ nullptr)) as [[Hl Hr] | Hpart].
  - destruct (update_both_fields l r st Hl Hr) as (-> & -> & ->).
    rewrite isr_releases_app, Hmode.
    split.
    { rewrite Hcs. case_decide; cbn; by rewrite app_nil_r. }
    destruct Hlock as [H0 H1]. destruct Hord as [HordL HordR].
    destruct (decide (leftAudioBuffer st !!! slot0 = nullptr)) as [HL0 | HL0].
    { assert (rightAudioBuffer st !!! slot0 = nullptr) as HR0 by tauto.
      rewrite (pending_empty _ HordL HL0), (pending_empty _ HordR HR0) in Hsub.
      rewrite !switcheroo_empty by done. cbn [fst snd].
      rewrite (HordL HL0), (HordR HR0), !pending_vec2.
      rewrite (decide_True _ _ Hl), (decide_True _ _ Hr).
      rewrite !decide_False by tauto.
      rewrite app_nil_r in Hsub. by apply sublist_app. }
    assert (rightAudioBuffer st !!! slot0 ≠ nullptr) as HR0 by tauto.
    destruct (decide (leftAudioBuffer st !!! slot1 = nullptr)) as [HL1 | HL1].
    { assert (rightAudioBuffer st !!! slot1 = nullptr) as HR1 by tauto.
      rewrite (pending_half _ HL0 HL1), (pending_half _ HR0 HR1) in Hsub.
      rewrite !switcheroo_half by done. cbn [fst snd].
      rewrite !pending_vec2, !decide_True by done.
      cbn [app zip zip_with] in *.
      rewrite snoc2. by apply sublist_app. }
    assert (rightAudioBuffer st !!! slot1 ≠ nullptr) as HR1 by tauto.
    rewrite (pending_full _ HL0 HL1), (pending_full _ HR0 HR1) in Hsub.
    rewrite !switcheroo_full by done. cbn [fst snd].
    rewrite !pending_vec2, !decide_True by done.
    cbn [app zip zip_with] in *.
    rewrite snoc2. apply sublist_app; [| done].
    etransitivity; [| exact Hsub].
    apply sublist_app; [done |]. by apply sublist_cons.
  - destruct (update_partial_fields l r st Hpart) as (-> & -> & ->).
    rewrite isr_releases_app, Hmode. cbn. rewrite !app_nil_r. done.
Qed.

Lemma elvis_not_silent p :
  elvis p addr_silentAudio ≠ addr_silentAudio → p ≠ nullptr.
Proof. intros Hp ->. by apply Hp. Qed.

Lemma pending_rotate q :
  q !!! slot0 ≠ nullptr →
  pending q = q !!! slot0 :: pending [# q !!! slot1; nullptr].
Proof.
  inv_vec q. intros p0 p1. rewrite !pending_vec2. cbn.
  intros Hp0. rewrite (decide_True _ _ Hp0).
  rewrite (decide_False (P := nullptr ≠ nullptr)) by tauto.
  by rewrite app_nil_r.
Qed.

Lemma fifo_inv_dmaISR SADDR st st' acc :
  fifo_inv st acc → dmaISR SADDR st = Some st' → fifo_inv st' acc.
Proof.
  intros (Hmode & Hlock & Hord & cs & Hcs & Hsub) Hisr.
  split; [| split; [by eapply lockstep_dmaISR |
                    split; [by eapply queues_ordered_dmaISR |]]].
  { apply dmaISR_inv in Hisr as (_ & _ & _ & _ & _ & _ & _ & _ & Hq).
    destruct Hq as [(_ & _ & _ & _ & ->) | (_ & _ & _ & ->)];
      by rewrite foldl_app, Hmode. }
  apply dmaISR_inv in Hisr as (_ & _ & _ & _ & _ & _ & _ & _ & Hq).
  unfold pending_pairs in *.
  destruct Hq as [(Hl & Hr & -> & -> & ->) | (_ & -> & -> & ->)].
  - apply elvis_not_silent in Hl as HL0. apply elvis_not_silent in Hr as HR0.
    unfold isr_leftAudio, isr_rightAudio.
    rewrite !elvis_real by done.
    exists (cs ++ [(leftAudioBuffer st !!! slot0, rightAudioBuffer st !!! slot0)]).
    rewrite isr_releases_app, Hmode, Hcs, left_right_app. split; [done |].
    rewrite (pending_rotate _ HL0), (pending_rotate _ HR0) in Hsub.
    cbn [zip zip_with] in Hsub. by rewrite <- app_assoc.
  - exists cs. rewrite isr_releases_app, Hmode, Hcs. cbn.
    by rewrite app_nil_r.
Qed.

Lemma accepted_cons ev evs : accepted (ev :: evs) = accepted_by ev ++ accepted evs.
Proof. reflexivity. Qed.

Lemma fifo_inv_run evs : ∀ st st' acc,
  fifo_inv st acc → run st evs = Some st' → fifo_inv st' (acc ++ accepted evs).
Proof.
  induction evs as [| ev evs IH]; intros st st' acc Hinv Hrun.
  - cbn in Hrun. injection Hrun as <-. by rewrite app_nil_r.
  - cbn in Hrun. destruct (step st ev) as [st1 |] eqn:Hstep; [| done].
    cbn in Hrun. rewrite accepted_cons, app_assoc.
    apply (IH st1); [| done].
    destruct ev as [l r | a]; cbn in Hstep.
    + injection Hstep as <-. by apply fifo_inv_update.
    + cbn. rewrite app_nil_r. by eapply fifo_inv_dmaISR.
Qed.

(** C9.  At the end of every run from boot and [init]: the two queues are
    occupied alike, slot for slot; an [update] call puts its two blocks into
    the same slot of the two queues when both are present and leaves both
    queues alone otherwise; a firing of [dmaISR] releases the two fronts
    and rotates both queues, or releases nothing and leaves both queues
    alone; and the pairs of blocks the handler has released so far,
    followed by the pairs still pending, are pairs accepted by [update], in
    the order of acceptance. *)
Theorem lockstep_fifo (addr : Z) (blocks : gmap nat audio_block_t)
    (evs : list event) (st : SpdifTx) :
  run (init (boot addr blocks)) evs = Some st →
  lockstep st
  ∧ occupancy (leftAudioBuffer st) = occupancy (rightAudioBuffer st)
  ∧ (∀ l r,
       (l ≠ nullptr ∧ r ≠ nullptr
        ∧ ∃ i : fin 2, leftAudioBuffer (update l r st) !!! i = l
                       ∧ rightAudioBuffer (update l r st) !!! i = r)
       ∨ (¬ (l ≠ nullptr ∧ r ≠ nullptr)
          ∧ leftAudioBuffer (update l r st) = leftAudioBuffer st
          ∧ rightAudioBuffer (update l r st) = rightAudioBuffer st))
  ∧ (∀ SADDR st', dmaISR SADDR st = Some st' →
       (leftAudioBuffer st !!! slot0 ≠ nullptr
        ∧ rightAudioBuffer st !!! slot0 ≠ nullptr
        ∧ leftAudioBuffer st' = [# leftAudioBuffer st !!! slot1; nullptr]
        ∧ rightAudioBuffer st' = [# rightAudioBuffer st !!! slot1; nullptr]
        ∧ releases (trace st') =
            releases (trace st)
            ++ [leftAudioBuffer st !!! slot0; rightAudioBuffer st !!! slot0])
       ∨ (leftAudioBuffer st' = leftAudioBuffer st
          ∧ rightAudioBuffer st' = rightAudioBuffer st
          ∧ releases (trace st') = releases (trace st)))
  ∧ ∃ cs, isr_releases false (trace st) = left_right cs
          ∧ cs ++ pending_pairs st `sublist_of` accepted evs.
Proof.
  intros Hrun.
  pose proof (fifo_inv_run evs _ _ [] (fifo_inv_init addr blocks) Hrun)
    as (_ & Hlock & Hord & Hfifo).
  split; [done |]. split; [by apply lockstep_occupancy |].
  split; [| split; [| done]].
  - intros l r.
    destruct (decide (l ≠ nullptr ∧ r ≠ nullptr)) as [[Hl Hr] | Hpart].
    + left. do 2 (split; [done |]).
      destruct (update_both_fields l r st Hl Hr) as (-> & -> & _).
      destruct Hlock as [H0 H1].
      destruct (decide (leftAudioBuffer st !!! slot0 = nullptr)) as [HL0 | HL0].
      { exists slot0. rewrite !switcheroo_empty by tauto. done. }
      exists slot1.
      destruct (decide (leftAudioBuffer st !!! slot1 = nullptr)) as [HL1 | HL1].
      { rewrite !switcheroo_half by tauto. done. }
      rewrite !switcheroo_full by tauto. done.
    + right. split; [done |].
      by destruct (update_partial_fields l r st Hpart) as (-> & -> & _).
  - intros SADDR st' Hisr.
    apply dmaISR_inv in Hisr as (_ & _ & _ & _ & _ & _ & _ & _ & Hq).
    destruct Hq as [(Hl & Hr & -> & -> & ->) | (_ & -> & -> & ->)].
    + left. apply elvis_not_silent in Hl as HL0.
      apply elvis_not_silent in Hr as HR0.
      unfold isr_leftAudio, isr_rightAudio. rewrite !elvis_real by done.
      do 4 (split; [done |]). by rewrite releases_app.
    + right. do 2 (split; [done |]). rewrite releases_app. cbn.
      by rewrite app_nil_r.
Qed.

Lemma lockstep_fifo_witness :
  lockstep demo_played
  ∧ occupancy (leftAudioBuffer demo_played)
    = occupancy (rightAudioBuffer demo_played)
  ∧ ∃ cs, isr_releases false (trace demo_played) = left_right cs
          ∧ cs ++ pending_pairs demo_played `sublist_of` accepted demo_events.
Proof.
  destruct (lockstep_fifo demo_base demo_pool demo_events demo_played)
    as (Hlock & Hocc & _ & _ & Hfifo).
  - compute_done.
  - split; [exact Hlock |]. split; [exact Hocc | exact Hfifo].
Defined.

(** * Scenarios *)

(** Two pairs submitted to the empty queues fill slot 0 then slot 1; one
    firing then encodes the first pair into the half selected, releases it,
    and leaves the second pair at slot 0. *)
Example scenario_submit_twice_fire_once :
  leftAudioBuffer demo_full = [# L1; L2]
  ∧ rightAudioBuffer demo_full = [# R1; R2]
  ∧ ∃ st, dmaISR demo_base demo_full = Some st
      ∧ leftAudioBuffer st = [# L2; nullptr]
      ∧ rightAudioBuffer st = [# R2; nullptr]
      ∧ releases (trace st) = [L1; R1]
      ∧ take 4 (drop 256 (fifoTx st))
        = [Z.shiftl (-32768) 8; Z.shiftl 32640 8;
           Z.shiftl (-32767) 8; Z.shiftl 32641 8]
      ∧ take 256 (fifoTx st) = replicate 256 0.
Proof.
  split; [compute_done |]. split; [compute_done |].
  eexists. split; [vm_compute; reflexivity |].
  repeat split; compute_done.
Qed.

(** A third pair submitted to the full queues evicts and releases the
    first. *)
Example scenario_overrun :
  leftAudioBuffer (update L3 R3 demo_full) = [# L2; L3]
  ∧ rightAudioBuffer (update L3 R3 demo_full) = [# R2; R3]
  ∧ releases (trace (update L3 R3 demo_full)) = [L1; R1].
Proof. repeat split; compute_done. Qed.

(** Two firings on the empty queues encode silence and release nothing. *)
Example scenario_silence_twice :
  ∃ st, run demo_empty [EvDmaISR demo_base; EvDmaISR (demo_base + 1024)]
        = Some st
    ∧ fifoTx st = replicate 512 0
    ∧ releases (trace st) = []
    ∧ leftAudioBuffer st = [# nullptr; nullptr]
    ∧ rightAudioBuffer st = [# nullptr; nullptr].
Proof.
  eexists. split; [vm_compute; reflexivity |].
  repeat split; compute_done.
Qed.

(** * Further properties of the encoder *)

Lemma ideal_interleave_length la ra :
  length la = length ra → length (ideal_interleave la ra) = (2 * length la)%nat.
Proof.
  revert ra. induction la as [| l la IH]; intros [| r ra] Hlen; cbn in *;
    try done.
  rewrite IH by lia. lia.
Qed.

Lemma ideal_interleave_lookup la : ∀ ra j,
  length la = length ra → (j < length la)%nat →
  ideal_interleave la ra !! (2 * j)%nat = shl8 <$> la !! j
  ∧ ideal_interleave la ra !! (2 * j + 1)%nat = shl8 <$> ra !! j.
Proof.
  induction la as [| l la IH]; intros [| r ra] j Hlen Hj;
    cbn [length] in *; try lia.
  destruct j as [| j]; [done |].
  replace (2 * S j)%nat with (S (S (2 * j))) by lia.
  replace (S (S (2 * j)) + 1)%nat with (S (S (2 * j + 1))) by lia.
  apply (IH ra j); lia.
Qed.

(** X1.  The loop unrolled four times computes what the comment in the
    source asks for: for 128-sample arrays and a destination that holds the
    window, the memory [spdifInterleave] returns is the old memory with the
    256 words at [pTx] replaced by the plain interleaving of the shifted
    left and right samples. *)
Theorem spdifInterleave_closed_form (pTx : nat) (la ra mem : list Z) :
  length la = 128%nat → length ra = 128%nat →
  (pTx + 256 ≤ length mem)%nat →
  spdifInterleave pTx la ra mem
  = Some (take pTx mem ++ ideal_interleave la ra ++ drop (pTx + 256) mem).
Proof.
  intros Hla Hra Hmem.
  destruct (spdifInterleave_spec pTx la ra Hla Hra mem Hmem)
    as (mem' & -> & Hlen & Hin & Hout).
  f_equal. apply list_eq. intros k.
  assert (length (ideal_interleave la ra) = 256%nat) as Hw
    by (rewrite ideal_interleave_length; lia).
  destruct (decide (k < pTx)%nat) as [Hlow | Hge].
  - rewrite Hout by lia.
    rewrite lookup_app_l by (rewrite length_take; lia).
    by rewrite lookup_take_lt.
  - rewrite lookup_app_r by (rewrite length_take; lia).
    rewrite length_take, Nat.min_l by lia.
    destruct (decide (k < pTx + 256)%nat) as [Hwin | Hhigh].
    + rewrite lookup_app_l by lia.
      destruct (Nat.Even_or_Odd (k - pTx)) as [[j Hj] | [j Hj]].
      * destruct (Hin j) as [Heven _]; [lia |].
        destruct (ideal_interleave_lookup la ra j) as [Hideal _]; [lia | lia |].
        replace k with (pTx + 2 * j)%nat by lia. rewrite Heven, <- Hideal.
        f_equal; lia.
      * destruct (Hin j) as [_ Hodd]; [lia |].
        destruct (ideal_interleave_lookup la ra j) as [_ Hideal]; [lia | lia |].
        replace k with (pTx + 2 * j + 1)%nat by lia. rewrite Hodd, <- Hideal.
        f_equal; lia.
    + rewrite Hout by lia. rewrite lookup_app_r by lia.
      rewrite lookup_drop. f_equal. lia.
Qed.

Lemma spdifInterleave_closed_form_witness :
  spdifInterleave 256 (data (ramp (-64))) (data (ramp 1000)) (replicate 512 7)
  = Some (take 256 (replicate 512 7)
          ++ ideal_interleave (data (ramp (-64))) (data (ramp 1000))
          ++ drop (256 + 256) (replicate 512 7)).
Proof.
  apply (spdifInterleave_closed_form 256 (data (ramp (-64)))
           (data (ramp 1000)) (replicate 512 7)).
  - reflexivity.
  - reflexivity.
  - vm_compute. lia.
Defined.

(** The loop reads its sources below index 128 only. *)
Lemma put_sample_ext pTx k src src' j mem :
  src !! j = src' !! j →
  put_sample pTx k src j mem = put_sample pTx k src' j mem.
Proof. unfold put_sample. by intros ->. Qed.

Lemma interleave_body_ext pTx la la' ra ra' i mem :
  (∀ j, (j < i + 4)%nat → la !! j = la' !! j) →
  (∀ j, (j < i + 4)%nat → ra !! j = ra' !! j) →
  interleave_body pTx la ra i mem = interleave_body pTx la' ra' i mem.
Proof.
  intros Hl Hr. unfold interleave_body.
  repeat match goal with
  | |- (put_sample ?p ?k ?s ?j ?m ≫= _) = (put_sample ?p ?k ?s' ?j ?m ≫= _) =>
      rewrite (put_sample_ext p k s s' j m)
        by (first [apply Hl | apply Hr]; lia);
      destruct (put_sample p k s' j m); cbn [mbind option_bind];
      [| reflexivity]
  end.
  apply put_sample_ext. apply Hr. lia.
Qed.

Lemma interleave_loop_ext pTx la la' ra ra' fuel : ∀ n mem,
  (∀ j, (j < 128)%nat → la !! j = la' !! j) →
  (∀ j, (j < 128)%nat → ra !! j = ra' !! j) →
  interleave_loop fuel pTx la ra (4 * n) mem
  = interleave_loop fuel pTx la' ra' (4 * n) mem.
Proof.
  induction fuel as [| fuel IH]; intros n mem Hl Hr; [done |].
  cbn [interleave_loop]. case_decide as Hlt; [| done].
  rewrite (interleave_body_ext pTx la la' ra ra')
    by (intros j Hj; first [apply Hl | apply Hr]; lia).
  destruct (interleave_body pTx la' ra' (4 * n) mem) as [m |]; [| done].
  cbn [mbind option_bind].
  replace (4 * n + 4)%nat with (4 * S n)%nat by lia. by apply IH.
Qed.

(** A loop that returns has made its last round, which reads sample 127
    of both sources and stores word 255 of the window. *)
Lemma put_sample_inv pTx k src j mem mem' :
  put_sample pTx k src j mem = Some mem' →
  (j < length src)%nat ∧ (pTx + k < length mem)%nat
  ∧ length mem' = length mem.
Proof.
  intros Hput. split; [| split].
  - unfold put_sample in Hput.
    destruct (src !! j) as [x |] eqn:Hx; [| done].
    by apply lookup_lt_Some in Hx.
  - unfold put_sample, store in Hput.
    destruct (src !! j) as [x |]; [| done]. cbn in Hput.
    by case_decide.
  - by eapply put_sample_length.
Qed.

Lemma interleave_body_inv pTx la ra i mem mem' :
  interleave_body pTx la ra i mem = Some mem' →
  (i + 4 ≤ length la)%nat ∧ (i + 4 ≤ length ra)%nat
  ∧ (pTx + 2 * i + 8 ≤ length mem)%nat.
Proof.
  unfold interleave_body. intros H.
  repeat match type of H with
  | (put_sample ?p ?k ?s ?j ?m ≫= _) = Some _ =>
      let m' := fresh "m" in
      let Hm := fresh "Hm" in
      destruct (put_sample p k s j m) as [m' |] eqn:Hm; [| done];
      apply put_sample_inv in Hm as (? & ? & ?);
      cbn [mbind option_bind] in H
  end.
  apply put_sample_inv in H as (? & ? & ?). lia.
Qed.

Lemma interleave_loop_inv pTx la ra fuel : ∀ n mem mem',
  (n < 32)%nat →
  interleave_loop fuel pTx la ra (4 * n) mem = Some mem' →
  (128 ≤ length la)%nat ∧ (128 ≤ length ra)%nat
  ∧ (pTx + 256 ≤ length mem)%nat.
Proof.
  induction fuel as [| fuel IH]; intros n mem mem' Hn; cbn [interleave_loop];
    (case_decide; [| lia]); [done |].
  destruct (interleave_body pTx la ra (4 * n) mem) as [m |] eqn:Hb; [| done].
  cbn [mbind option_bind]. intros Hloop.
  pose proof (interleave_body_length _ _ _ _ _ _ Hb) as Hlen.
  apply interleave_body_inv in Hb as (Hbl & Hbr & Hbm).
  destruct (decide (n = 31%nat)) as [-> | Hne]; [lia |].
  replace (4 * n + 4)%nat with (4 * S n)%nat in Hloop by lia.
  apply IH in Hloop; lia.
Qed.

(** X2.  [spdifInterleave] makes every one of its accesses in bounds exactly
    when each source holds at least 128 samples and the 256-word window at
    [pTx] lies inside the destination: with a shorter source or a window
    that sticks out, some access of the loop is out of bounds. *)
Theorem spdifInterleave_defined_iff (pTx : nat) (la ra mem : list Z) :
  is_Some (spdifInterleave pTx la ra mem)
  ↔ (128 ≤ length la)%nat ∧ (128 ≤ length ra)%nat
    ∧ (pTx + 256 ≤ length mem)%nat.
Proof.
  split.
  - intros [mem' Hrun].
    apply (interleave_loop_inv pTx la ra 128 0 mem mem'); [lia | exact Hrun].
  - intros (Hla & Hra & Hmem). unfold spdifInterleave.
    rewrite (interleave_loop_ext pTx la (take 128 la) ra (take 128 ra) 128 0).
    + destruct (spdifInterleave_spec pTx (take 128 la) (take 128 ra))
        with (mem := mem) as (mem' & Hrun & _);
        [rewrite length_take; lia | rewrite length_take; lia | done |].
      by exists mem'.
    + intros j Hj. by rewrite lookup_take_lt.
    + intros j Hj. by rewrite lookup_take_lt.
Qed.

(** ** The layout of a transmit word *)

Lemma shl8_carries_sample x : is_int16 x → carries_sample (shl8 x) x.
Proof.
  intros Hx. rewrite shl8_int16 by done.
  unfold carries_sample, low_byte, centre_bytes, top_byte, is_int16 in *.
  split; [| split].
  - change 0xFF with (Z.ones 8). rewrite Z.land_ones by lia.
    rewrite Z.shiftl_mul_pow2 by lia. apply Z.mod_mul. lia.
  - rewrite Z.shiftr_shiftl_l by lia. rewrite Z.sub_diag, Z.shiftl_0_r.
    change 0xFFFF with (Z.ones 16). by rewrite Z.land_ones by lia.
  - rewrite Z.shiftr_shiftl_r by lia. rewrite Z.shiftr_div_pow2 by lia.
    case_decide.
    + symmetry. apply (Z.div_unique_pos x (2 ^ (24 - 8)) (-1) (x + 65536)); lia.
    + apply Z.div_small. lia.
Qed.

(** X3.  Each word [spdifInterleave] writes for a 16-bit sample has its low
    byte clear and the sample's 16-bit pattern in its two centre bytes; its
    top byte is the sign extension of the sample, [0x00] for a sample that
    is not negative and [0xFF] (all ones) for a negative one. *)
Theorem spdifInterleave_word_layout (pTx : nat) (la ra mem : list Z) :
  length la = 128%nat → length ra = 128%nat →
  Forall is_int16 la → Forall is_int16 ra →
  (pTx + 256 ≤ length mem)%nat →
  ∃ mem', spdifInterleave pTx la ra mem = Some mem'
    ∧ ∀ i l r, la !! i = Some l → ra !! i = Some r →
        ∃ wl wr, mem' !! (pTx + 2 * i)%nat = Some wl
          ∧ mem' !! (pTx + 2 * i + 1)%nat = Some wr
          ∧ carries_sample wl l ∧ carries_sample wr r.
Proof.
  intros Hla Hra Hl16 Hr16 Hmem.
  destruct (spdifInterleave_spec pTx la ra Hla Hra mem Hmem)
    as (mem' & Hrun & _ & Hin & _).
  exists mem'. split; [done |]. intros i l r Hl Hr.
  assert (i < 128)%nat as Hi by (apply lookup_lt_Some in Hl; lia).
  destruct (Hin i Hi) as [Hev Hod]. rewrite Hl in Hev. rewrite Hr in Hod.
  exists (shl8 l), (shl8 r). do 2 (split; [done |]).
  split; apply shl8_carries_sample.
  - exact (Forall_int16_lookup la i l Hl16 Hl).
  - exact (Forall_int16_lookup ra i r Hr16 Hr).
Qed.

Lemma spdifInterleave_word_layout_witness :
  ∃ mem', spdifInterleave 0 (data (ramp (-64))) (data (ramp 1000))
            (replicate 512 0) = Some mem'
    ∧ ∀ i l r, data (ramp (-64)) !! i = Some l →
        data (ramp 1000) !! i = Some r →
        ∃ wl wr, mem' !! (0 + 2 * i)%nat = Some wl
          ∧ mem' !! (0 + 2 * i + 1)%nat = Some wr
          ∧ carries_sample wl l ∧ carries_sample wr r.
Proof.
  apply (spdifInterleave_word_layout 0 (data (ramp (-64)))
           (data (ramp 1000)) (replicate 512 0)).
  - reflexivity.
  - reflexivity.
  - compute_done.
  - compute_done.
  - vm_compute. lia.
Defined.

(** * The queues as a bounded first-in first-out queue *)

Lemma queues_ordered_run st0 evs st :
  run (init st0) evs = Some st → queues_ordered st.
Proof.
  apply run_invariant; [| apply queues_ordered_init].
  intros s ev s' Hs Hstep. destruct ev as [l r | a]; cbn in Hstep.
  - injection Hstep as <-. by apply queues_ordered_update.
  - by eapply queues_ordered_dmaISR.
Qed.

(** The three shapes of the queues of a state in lockstep and in order. *)
Lemma pending_pairs_cases st :
  lockstep st → queues_ordered st →
  (leftAudioBuffer st !!! slot0 = nullptr
   ∧ rightAudioBuffer st !!! slot0 = nullptr
   ∧ leftAudioBuffer st !!! slot1 = nullptr
   ∧ rightAudioBuffer st !!! slot1 = nullptr
   ∧ pending_pairs st = [])
  ∨ (leftAudioBuffer st !!! slot0 ≠ nullptr
     ∧ rightAudioBuffer st !!! slot0 ≠ nullptr
     ∧ leftAudioBuffer st !!! slot1 = nullptr
     ∧ rightAudioBuffer st !!! slot1 = nullptr
     ∧ pending_pairs st
       = [(leftAudioBuffer st !!! slot0, rightAudioBuffer st !!! slot0)])
  ∨ (leftAudioBuffer st !!! slot0 ≠ nullptr
     ∧ rightAudioBuffer st !!! slot0 ≠ nullptr
     ∧ leftAudioBuffer st !!! slot1 ≠ nullptr
     ∧ rightAudioBuffer st !!! slot1 ≠ nullptr
     ∧ pending_pairs st
       = [(leftAudioBuffer st !!! slot0, rightAudioBuffer st !!! slot0);
          (leftAudioBuffer st !!! slot1, rightAudioBuffer st !!! slot1)]).
Proof.
  intros [H0 H1] [HordL HordR]. unfold pending_pairs.
  destruct (decide (leftAudioBuffer st !!! slot0 = nullptr)) as [HL0 | HL0].
  { left. assert (rightAudioBuffer st !!! slot0 = nullptr) as HR0 by tauto.
    rewrite (pending_empty _ HordL HL0), (pending_empty _ HordR HR0).
    do 2 (split; [done |]). split; [by apply HordL |].
    split; [by apply HordR | done]. }
  right. assert (rightAudioBuffer st !!! slot0 ≠ nullptr) as HR0 by tauto.
  destruct (decide (leftAudioBuffer st !!! slot1 = nullptr)) as [HL1 | HL1].
  { left. assert (rightAudioBuffer st !!! slot1 = nullptr) as HR1 by tauto.
    by rewrite (pending_half _ HL0 HL1), (pending_half _ HR0 HR1). }
  right. assert (rightAudioBuffer st !!! slot1 ≠ nullptr) as HR1 by tauto.
  by rewrite (pending_full _ HL0 HL1), (pending_full _ HR0 HR1).
Qed.

Lemma pending_pairs_vec2 st (l0 l1 r0 r1 : audio_block_ptr) :
  leftAudioBuffer st = [# l0; l1] → rightAudioBuffer st = [# r0; r1] →
  pending_pairs st = zip (pending [# l0; l1]) (pending [# r0; r1]).
Proof. unfold pending_pairs. by intros -> ->. Qed.

(** An [update] call with both blocks present appends the pair and keeps
    the newest two pairs; what falls off the front is released. *)
Lemma update_push l r st :
  lockstep st → queues_ordered st → l ≠ nullptr → r ≠ nullptr →
  pending_pairs (update l r st) = last_two (pending_pairs st ++ [(l, r)])
  ∧ releases (trace (update l r st))
    = releases (trace st)
      ++ left_right (all_but_last_two (pending_pairs st ++ [(l, r)])).
Proof.
  intros Hlock Hord Hl Hr.
  destruct (update_both_fields l r st Hl Hr) as (HqL & HqR & Htr).
  rewrite Htr, releases_app. unfold pending_pairs at 1. rewrite HqL, HqR.
  destruct (pending_pairs_cases st Hlock Hord)
    as [(HL0 & HR0 & HL1 & HR1 & ->)
       | [(HL0 & HR0 & HL1 & HR1 & ->) | (HL0 & HR0 & HL1 & HR1 & ->)]].
  - rewrite !switcheroo_empty by done. cbn [fst snd].
    rewrite HL1, HR1, !pending_vec2.
    rewrite (decide_True _ _ Hl), (decide_True _ _ Hr).
    rewrite !decide_False by tauto. done.
  - rewrite !switcheroo_half by done. cbn [fst snd].
    rewrite !pending_vec2, !decide_True by done.
    rewrite decide_False by tauto. done.
  - rewrite !switcheroo_full by done. cbn [fst snd].
    rewrite !pending_vec2, !decide_True by done. done.
Qed.

Lemma update_skip l r st :
  ¬ (l ≠ nullptr ∧ r ≠ nullptr) →
  pending_pairs (update l r st) = pending_pairs st
  ∧ releases (trace (update l r st)) = releases (trace st).
Proof.
  intros Hpart.
  destruct (update_partial_fields l r st Hpart) as (HqL & HqR & ->).
  unfold pending_pairs. rewrite HqL, HqR, releases_app. cbn.
  by rewrite app_nil_r.
Qed.

(** A firing removes the oldest pending pair, if there is one, and
    releases it; the blocks it encodes are that pair, or silence. *)
Lemma dmaISR_pop SADDR st st' :
  wf st → lockstep st → queues_ordered st → dmaISR SADDR st = Some st' →
  pending_pairs st' = tail (pending_pairs st)
  ∧ releases (trace st')
    = releases (trace st) ++ left_right (take 1 (pending_pairs st))
  ∧ isr_leftAudio st
    = default addr_silentAudio (fst <$> head (pending_pairs st))
  ∧ isr_rightAudio st
    = default addr_silentAudio (snd <$> head (pending_pairs st)).
Proof.
  intros (_ & _ & HpL & HpR) Hlock Hord Hisr.
  apply dmaISR_inv in Hisr as (_ & _ & _ & _ & _ & _ & _ & _ & Hq).
  pose proof (pool_ptr_front st _ HpL) as HsL.
  pose proof (pool_ptr_front st _ HpR) as HsR.
  unfold isr_leftAudio, isr_rightAudio in *.
  destruct (pending_pairs_cases st Hlock Hord)
    as [(HL0 & HR0 & HL1 & HR1 & Hpp)
       | [(HL0 & HR0 & HL1 & HR1 & Hpp) | (HL0 & HR0 & HL1 & HR1 & Hpp)]];
    rewrite Hpp.
  - rewrite HL0, HR0, elvis_null in *.
    destruct Hq as [(Hl & _) | (_ & HqL & HqR & ->)]; [done |].
    unfold pending_pairs in *. rewrite HqL, HqR, Hpp, releases_app. cbn.
    by rewrite app_nil_r.
  - rewrite !elvis_real in * by done.
    destruct Hq as [(_ & _ & HqL & HqR & ->) | (Hsil & _)]; [| tauto].
    rewrite (pending_pairs_vec2 st' _ _ _ _ HqL HqR), HL1, HR1, releases_app.
    done.
  - rewrite !elvis_real in * by done.
    destruct Hq as [(_ & _ & HqL & HqR & ->) | (Hsil & _)]; [| tauto].
    rewrite (pending_pairs_vec2 st' _ _ _ _ HqL HqR), releases_app.
    rewrite !pending_vec2.
    rewrite (decide_True _ _ HL1), (decide_True _ _ HR1).
    rewrite !decide_False by tauto. done.
Qed.

Section newest_two.
Context {A : Type}.
Implicit Types xs ys : list A.
Local Open Scope nat_scope.

Lemma split_newest_two xs : all_but_last_two xs ++ last_two xs = xs.
Proof. apply take_drop. Qed.

Lemma last_two_short xs : length xs ≤ 2 → last_two xs = xs.
Proof.
  intros Hlen. unfold last_two.
  replace (length xs - 2) with 0 by lia. apply drop_0.
Qed.

Lemma all_but_last_two_short xs : length xs ≤ 2 → all_but_last_two xs = [].
Proof.
  intros Hlen. unfold all_but_last_two.
  replace (length xs - 2) with 0 by lia. apply take_0.
Qed.

Lemma length_last_two xs : length (last_two xs) ≤ 2.
Proof. unfold last_two. rewrite length_drop. lia. Qed.

Lemma newest_two_app_index xs ys :
  length (xs ++ ys) - 2
  = length (all_but_last_two xs) + (length (last_two xs ++ ys) - 2).
Proof.
  unfold all_but_last_two, last_two.
  rewrite !length_app, length_take, length_drop. lia.
Qed.

Lemma last_two_app xs ys : last_two (last_two xs ++ ys) = last_two (xs ++ ys).
Proof.
  symmetry.
  transitivity (drop (length (all_but_last_two xs)
                      + (length (last_two xs ++ ys) - 2))
                  (all_but_last_two xs ++ (last_two xs ++ ys))).
  - rewrite <- newest_two_app_index.
    by rewrite (assoc_L (++)), split_newest_two.
  - by rewrite drop_app_add.
Qed.

Lemma all_but_last_two_app xs ys :
  all_but_last_two (xs ++ ys)
  = all_but_last_two xs ++ all_but_last_two (last_two xs ++ ys).
Proof.
  transitivity (take (length (all_but_last_two xs)
                      + (length (last_two xs ++ ys) - 2))
                  (all_but_last_two xs ++ (last_two xs ++ ys))).
  - rewrite <- newest_two_app_index.
    by rewrite (assoc_L (++)), split_newest_two.
  - by rewrite take_app_add.
Qed.
End newest_two.

Lemma length_pending_pairs st :
  lockstep st → queues_ordered st → (length (pending_pairs st) ≤ 2)%nat.
Proof.
  intros Hlock Hord.
  destruct (pending_pairs_cases st Hlock Hord)
    as [(_ & _ & _ & _ & ->) | [(_ & _ & _ & _ & ->) | (_ & _ & _ & _ & ->)]];
    cbn; lia.
Qed.

Lemma updates_cons p ps st :
  updates (p :: ps) st = updates ps (update p.1 p.2 st).
Proof. reflexivity. Qed.

(** X4.  The drop-oldest policy of [update]: from a state in lockstep and in
    order, after any sequence of [update] calls that each bring two blocks
    the queues hold the newest two of the pairs pending before followed by
    the pairs brought, in order; every older pair has been released, oldest
    first, left block then right block, and nothing else has. *)
Theorem updates_keep_newest_two
    (ps : list (audio_block_ptr * audio_block_ptr)) (st : SpdifTx) :
  lockstep st → queues_ordered st →
  Forall (λ p, p.1 ≠ nullptr ∧ p.2 ≠ nullptr) ps →
  pending_pairs (updates ps st) = last_two (pending_pairs st ++ ps)
  ∧ releases (trace (updates ps st))
    = releases (trace st)
      ++ left_right (all_but_last_two (pending_pairs st ++ ps)).
Proof.
  revert st. induction ps as [| p ps IH]; intros st Hlock Hord Hps.
  - pose proof (length_pending_pairs st Hlock Hord) as Hlen.
    rewrite app_nil_r, last_two_short, all_but_last_two_short by done.
    cbn. by rewrite app_nil_r.
  - apply Forall_cons in Hps as [[Hl Hr] Hps].
    rewrite updates_cons.
    destruct (update_push p.1 p.2 st Hlock Hord Hl Hr) as [Hpp Hrel].
    destruct (IH (update p.1 p.2 st)) as [-> ->];
      [by apply lockstep_update | by apply queues_ordered_update | done |].
    rewrite Hpp, Hrel. rewrite <- surjective_pairing.
    rewrite last_two_app, <- !(assoc_L (++)). split; [done |].
    f_equal. rewrite <- left_right_app. f_equal.
    rewrite <- (all_but_last_two_app (pending_pairs st ++ [p]) ps).
    by rewrite <- (assoc_L (++)).
Qed.

Lemma updates_keep_newest_two_witness :
  pending_pairs (updates [(L2, R2); (L3, R3); (L1, R1)] demo_one)
  = last_two (pending_pairs demo_one ++ [(L2, R2); (L3, R3); (L1, R1)])
  ∧ releases (trace (updates [(L2, R2); (L3, R3); (L1, R1)] demo_one))
    = releases (trace demo_one)
      ++ left_right (all_but_last_two
                       (pending_pairs demo_one
                        ++ [(L2, R2); (L3, R3); (L1, R1)])).
Proof.
  apply (updates_keep_newest_two [(L2, R2); (L3, R3); (L1, R1)] demo_one).
  - compute_done.
  - compute_done.
  - compute_done.
Defined.

(** * What a firing transmits *)

(** The memory a firing leaves in [fifoTx], in closed form. *)
Lemma dmaISR_closed_form SADDR st st' :
  wf st → dmaISR SADDR st = Some st' →
  ∃ ldata rdata,
    deref_data st (isr_leftAudio st) = Some ldata
    ∧ deref_data st (isr_rightAudio st) = Some rdata
    ∧ length ldata = 128%nat ∧ length rdata = 128%nat
    ∧ fifoTx st'
      = take (Z.to_nat (isr_txOffset SADDR st)) (fifoTx st)
        ++ ideal_interleave ldata rdata
        ++ drop (Z.to_nat (isr_txOffset SADDR st) + 256) (fifoTx st).
Proof.
  intros (Hfifo & Hsil & HpL & HpR) Hisr.
  apply dmaISR_inv in Hisr as (ld & rd & Hld & Hrd & Hmem & _).
  destruct (front_data st (leftAudioBuffer st) Hsil HpL)
    as (ld' & Hld' & Hll & _).
  destruct (front_data st (rightAudioBuffer st) Hsil HpR)
    as (rd' & Hrd' & Hrl & _).
  unfold isr_leftAudio, isr_rightAudio in *.
  assert (ld' = ld) as -> by congruence.
  assert (rd' = rd) as -> by congruence.
  exists ld, rd. do 4 (split; [done |]).
  rewrite spdifInterleave_closed_form in Hmem;
    [congruence | done | done | by apply txOffset_window].
Qed.

(** X5.  A firing of [dmaISR] in a well-formed state in lockstep and in
    order returns; it encodes the oldest pending pair of blocks, or the
    silent block on both channels when none is pending, into the 256 words
    of [fifoTx] at the offset it selected, leaving the other words alone; it
    removes that pair from the queues and releases its two blocks. *)
Theorem dmaISR_transmits_oldest (SADDR : Z) (st : SpdifTx) :
  wf st → lockstep st → queues_ordered st →
  ∃ st' ldata rdata,
    dmaISR SADDR st = Some st'
    ∧ deref_data st
        (default addr_silentAudio (fst <$> head (pending_pairs st)))
      = Some ldata
    ∧ deref_data st
        (default addr_silentAudio (snd <$> head (pending_pairs st)))
      = Some rdata
    ∧ fifoTx st'
      = take (Z.to_nat (isr_txOffset SADDR st)) (fifoTx st)
        ++ ideal_interleave ldata rdata
        ++ drop (Z.to_nat (isr_txOffset SADDR st) + 256) (fifoTx st)
    ∧ pending_pairs st' = tail (pending_pairs st)
    ∧ releases (trace st')
      = releases (trace st) ++ left_right (take 1 (pending_pairs st)).
Proof.
  intros Hwf Hlock Hord.
  destruct (dmaISR_total SADDR st Hwf) as [st' Hisr].
  destruct (dmaISR_closed_form SADDR st st' Hwf Hisr)
    as (ld & rd & Hld & Hrd & _ & _ & Hfifo).
  destruct (dmaISR_pop SADDR st st' Hwf Hlock Hord Hisr)
    as (Hpp & Hrel & HfL & HfR).
  exists st', ld, rd. split; [done |].
  rewrite <- HfL, <- HfR. done.
Qed.

Lemma dmaISR_transmits_oldest_witness :
  ∃ st' ldata rdata,
    dmaISR (demo_base + 1024) demo_full = Some st'
    ∧ deref_data demo_full
        (default addr_silentAudio (fst <$> head (pending_pairs demo_full)))
      = Some ldata
    ∧ deref_data demo_full
        (default addr_silentAudio (snd <$> head (pending_pairs demo_full)))
      = Some rdata
    ∧ fifoTx st'
      = take (Z.to_nat (isr_txOffset (demo_base + 1024) demo_full))
          (fifoTx demo_full)
        ++ ideal_interleave ldata rdata
        ++ drop (Z.to_nat (isr_txOffset (demo_base + 1024) demo_full) + 256)
             (fifoTx demo_full)
    ∧ pending_pairs st' = tail (pending_pairs demo_full)
    ∧ releases (trace st')
      = releases (trace demo_full)
        ++ left_right (take 1 (pending_pairs demo_full)).
Proof.
  apply (dmaISR_transmits_oldest (demo_base + 1024) demo_full).
  - compute_done.
  - compute_done.
  - compute_done.
Defined.

(** * Memory along a run *)

Lemma silentAudio_step st ev st' :
  step st ev = Some st' → silentAudio st' = silentAudio st.
Proof.
  destruct ev as [l r | a]; cbn; intros Hstep.
  - injection Hstep as <-.
    destruct (decide (l ≠ nullptr ∧ r ≠ nullptr)) as [[Hl Hr] | Hpart].
    + rewrite update_both by done. cbv zeta. by case_decide.
    + by rewrite update_partial.
  - by apply dmaISR_inv in Hstep as (_ & _ & _ & _ & _ & _ & Hs & _).
Qed.

Lemma fifoTx_addr_step st ev st' :
  step st ev = Some st' → fifoTx_addr st' = fifoTx_addr st.
Proof.
  destruct ev as [l r | a]; cbn; intros Hstep.
  - injection Hstep as <-.
    destruct (decide (l ≠ nullptr ∧ r ≠ nullptr)) as [[Hl Hr] | Hpart].
    + rewrite update_both by done. cbv zeta. by case_decide.
    + by rewrite update_partial.
  - by apply dmaISR_inv in Hstep as (_ & _ & _ & _ & _ & Ha & _).
Qed.

Lemma blocks_run st0 evs st :
  run (init st0) evs = Some st →
  pool st = pool st0 ∧ silentAudio st = zero_block
  ∧ fifoTx_addr st = fifoTx_addr st0.
Proof.
  apply (run_invariant
           (λ s, pool s = pool st0 ∧ silentAudio s = zero_block
                 ∧ fifoTx_addr s = fifoTx_addr st0)).
  - intros s ev s' (Hp & Hs & Ha) Hstep.
    rewrite (pool_step _ _ _ Hstep), (silentAudio_step _ _ _ Hstep),
      (fifoTx_addr_step _ _ _ Hstep). done.
  - by open_state st0.
Qed.

Lemma run_safe_aux st0 evs :
  length (fifoTx st0) = 512%nat → Forall (event_ok st0) evs →
  ∃ st, run (init st0) evs = Some st
    ∧ wf st ∧ pool st = pool st0 ∧ silentAudio st = zero_block.
Proof.
  intros Hfifo Hevs.
  destruct (run_total evs (init st0)) as (st & Hrun & Hwf).
  - by apply wf_init.
  - eapply Forall_impl; [done |]. intros ev. apply event_ok_ext.
    by open_state st0.
  - exists st. do 2 (split; [done |]).
    by destruct (blocks_run st0 evs st Hrun) as (Hp & Hs & _).
Qed.

Lemma run_end_aux st0 evs st :
  length (fifoTx st0) = 512%nat → Forall (event_ok st0) evs →
  run (init st0) evs = Some st →
  wf st ∧ pool st = pool st0 ∧ silentAudio st = zero_block.
Proof.
  intros Hfifo Hevs Hrun.
  destruct (run_safe_aux st0 evs Hfifo Hevs) as (st' & Hrun' & H).
  by assert (st' = st) as -> by congruence.
Qed.

(** X6.  Memory safety of the driver: when [fifoTx] has its 512 words and
    the audio library hands [update] only null pointers or blocks of 128
    samples, every run that starts with [init] is defined, which is to say
    no firing dereferences a null pointer or leaves the bounds of [fifoTx]
    or of a sample array; the run ends in a well-formed state, and it has
    written neither a pool block nor [silentAudio], which still holds
    zeros. *)
Theorem run_memory_safe (st0 : SpdifTx) (evs : list event) :
  length (fifoTx st0) = 512%nat → Forall (event_ok st0) evs →
  ∃ st, run (init st0) evs = Some st
    ∧ wf st
    ∧ pool st = pool st0
    ∧ silentAudio st = zero_block.
Proof. apply run_safe_aux. Qed.

Lemma run_memory_safe_witness :
  ∃ st, run (init (boot demo_base demo_pool)) demo_events = Some st
    ∧ wf st
    ∧ pool st = pool (boot demo_base demo_pool)
    ∧ silentAudio st = zero_block.
Proof.
  apply (run_memory_safe (boot demo_base demo_pool) demo_events).
  - reflexivity.
  - compute_done.
Defined.

Lemma ideal_interleave_zero :
  ideal_interleave (data zero_block) (data zero_block) = replicate 256 0.
Proof. by vm_compute. Qed.

(** X7.  Underrun plays digital silence: at the end of a run that started
    with [init], a firing that finds no pending pair fills the 256 words it
    selected with zero, leaves the other words of [fifoTx] and both queues
    as they were, and releases nothing. *)
Theorem dmaISR_underrun_writes_zeros (st0 : SpdifTx) (evs : list event)
    (st : SpdifTx) (SADDR : Z) :
  length (fifoTx st0) = 512%nat → Forall (event_ok st0) evs →
  run (init st0) evs = Some st →
  pending_pairs st = [] →
  ∃ st', dmaISR SADDR st = Some st'
    ∧ fifoTx st'
      = take (Z.to_nat (isr_txOffset SADDR st)) (fifoTx st)
        ++ replicate 256 0
        ++ drop (Z.to_nat (isr_txOffset SADDR st) + 256) (fifoTx st)
    ∧ leftAudioBuffer st' = leftAudioBuffer st
    ∧ rightAudioBuffer st' = rightAudioBuffer st
    ∧ releases (trace st') = releases (trace st).
Proof.
  intros Hfifo Hevs Hrun Hempty.
  destruct (run_end_aux st0 evs st Hfifo Hevs Hrun) as (Hwf & _ & Hsil).
  pose proof (lockstep_run _ _ _ Hrun) as Hlock.
  pose proof (queues_ordered_run _ _ _ Hrun) as Hord.
  destruct (dmaISR_total SADDR st Hwf) as [st' Hisr].
  destruct (dmaISR_closed_form SADDR st st' Hwf Hisr)
    as (ld & rd & Hld & Hrd & _ & _ & Hmem).
  destruct (dmaISR_pop SADDR st st' Hwf Hlock Hord Hisr)
    as (_ & Hrel & HfL & HfR).
  rewrite Hempty in *. cbn in HfL, HfR, Hrel.
  assert (ld = data zero_block) as ->.
  { rewrite HfL in Hld. change (Some (data (silentAudio st)) = Some ld) in Hld.
    rewrite Hsil in Hld. congruence. }
  assert (rd = data zero_block) as ->.
  { rewrite HfR in Hrd. change (Some (data (silentAudio st)) = Some rd) in Hrd.
    rewrite Hsil in Hrd. congruence. }
  rewrite ideal_interleave_zero in Hmem.
  exists st'. do 2 (split; [done |]).
  apply dmaISR_inv in Hisr as (_ & _ & _ & _ & _ & _ & _ & _ & Hq).
  rewrite HfL in Hq.
  destruct Hq as [(Hl & _) | (_ & -> & -> & _)]; [done |].
  do 2 (split; [done |]). by rewrite Hrel, app_nil_r.
Qed.

Lemma dmaISR_underrun_writes_zeros_witness :
  ∃ st', dmaISR (demo_base + 1024) demo_drained = Some st'
    ∧ fifoTx st'
      = take (Z.to_nat (isr_txOffset (demo_base + 1024) demo_drained)) (fifoTx demo_drained)
        ++ replicate 256 0
        ++ drop (Z.to_nat (isr_txOffset (demo_base + 1024) demo_drained) + 256)
             (fifoTx demo_drained)
    ∧ leftAudioBuffer st' = leftAudioBuffer demo_drained
    ∧ rightAudioBuffer st' = rightAudioBuffer demo_drained
    ∧ releases (trace st') = releases (trace demo_drained).
Proof.
  apply (dmaISR_underrun_writes_zeros (boot demo_base demo_pool)
           [EvUpdate L1 R1; EvDmaISR demo_base] demo_drained (demo_base + 1024)).
  - reflexivity.
  - compute_done.
  - compute_done.
  - compute_done.
Defined.

(** * Ownership of the blocks *)

Lemma lockstep_step st ev st' :
  lockstep st → step st ev = Some st' → lockstep st'.
Proof.
  intros Hlock Hstep. destruct ev as [l r | a]; cbn in Hstep.
  - injection Hstep as <-. by apply lockstep_update.
  - by eapply lockstep_dmaISR.
Qed.

Lemma queues_ordered_step st ev st' :
  queues_ordered st → step st ev = Some st' → queues_ordered st'.
Proof.
  intros Hord Hstep. destruct ev as [l r | a]; cbn in Hstep.
  - injection Hstep as <-. by apply queues_ordered_update.
  - by eapply queues_ordered_dmaISR.
Qed.

(** Each step keeps the released blocks followed by the pending ones equal
    to the same list extended by what the step accepted. *)
Lemma release_order_step st ev st' :
  wf st → lockstep st → queues_ordered st → step st ev = Some st' →
  releases (trace st') ++ left_right (pending_pairs st')
  = (releases (trace st) ++ left_right (pending_pairs st))
    ++ left_right (accepted_by ev).
Proof.
  intros Hwf Hlock Hord Hstep. destruct ev as [l r | a]; cbn in Hstep.
  - injection Hstep as <-. cbn [accepted_by].
    destruct (decide (l ≠ nullptr ∧ r ≠ nullptr)) as [[Hl Hr] | Hpart].
    + destruct (update_push l r st Hlock Hord Hl Hr) as [-> ->].
      rewrite <- !(assoc_L (++)), <- !left_right_app.
      by rewrite split_newest_two.
    + destruct (update_skip l r st Hpart) as [-> ->]. cbn.
      by rewrite app_nil_r.
  - destruct (dmaISR_pop a st st' Hwf Hlock Hord Hstep) as (-> & -> & _).
    cbn [accepted_by]. rewrite <- !(assoc_L (++)), <- !left_right_app.
    change (tail (pending_pairs st)) with (drop 1 (pending_pairs st)).
    rewrite take_drop. cbn. by rewrite app_nil_r.
Qed.

Lemma release_order_run evs : ∀ st st',
  wf st → lockstep st → queues_ordered st → Forall (event_ok st) evs →
  run st evs = Some st' →
  releases (trace st') ++ left_right (pending_pairs st')
  = (releases (trace st) ++ left_right (pending_pairs st))
    ++ left_right (accepted evs).
Proof.
  induction evs as [| ev evs IH]; intros st st' Hwf Hlock Hord Hevs Hrun.
  - cbn in Hrun. injection Hrun as <-. cbn. by rewrite app_nil_r.
  - apply Forall_cons in Hevs as [Hev Hevs].
    cbn in Hrun. destruct (step st ev) as [st1 |] eqn:Hstep; [| done].
    cbn in Hrun.
    rewrite (IH st1 st'); [| by eapply wf_step | by eapply lockstep_step
                           | by eapply queues_ordered_step | | done].
    + rewrite (release_order_step st ev st1) by done.
      by rewrite accepted_cons, left_right_app, (assoc_L (++)).
    + eapply Forall_impl; [done |]. intros ev'.
      apply event_ok_ext. by eapply pool_step.
Qed.

Lemma release_order_boot addr blocks evs st :
  Forall (event_ok (boot addr blocks)) evs →
  run (init (boot addr blocks)) evs = Some st →
  releases (trace st) ++ left_right (pending_pairs st)
  = left_right (accepted evs).
Proof.
  intros Hevs Hrun.
  rewrite (release_order_run evs (init (boot addr blocks)) st);
    [done | | apply lockstep_init | apply queues_ordered_init | | done].
  - by apply wf_init.
  - eapply Forall_impl; [done |]. intros ev. by apply event_ok_ext.
Qed.



Lemma accepted_ok st evs p :
  Forall (event_ok st) evs → p ∈ left_right (accepted evs) →
  p ≠ nullptr ∧ p ≠ addr_silentAudio ∧ pool_ptr st p.
Proof.
  induction evs as [| ev evs IH]; intros Hevs Hp.
  - by apply elem_of_nil in Hp.
  - apply Forall_cons in Hevs as [Hev Hevs].
    rewrite accepted_cons, left_right_app, elem_of_app in Hp.
    destruct Hp as [Hp | Hp]; [| by apply IH].
    destruct ev as [l r | a]; cbn in Hp; [| by apply elem_of_nil in Hp].
    destruct Hev as [Hlp Hrp].
    case_decide as Hlr; cbn in Hp; [| by apply elem_of_nil in Hp].
    destruct Hlr as [Hl Hr].
    rewrite !elem_of_cons, elem_of_nil in Hp.
    destruct Hp as [-> | [-> | []]].
    + split; [done |]. split; [| done]. intros ->. done.
    + split; [done |]. split; [| done]. intros ->. done.
Qed.

(** X9.  What [release] is called on: along a run from boot in which the
    audio library hands in only null pointers or pool blocks, every pointer
    passed to [release], by [update] or by the handler, is a block that
    [update] accepted; it is never the null pointer and never
    [silentAudio], and it is a block of the pool. *)
Theorem releases_only_accepted_blocks (addr : Z)
    (blocks : gmap nat audio_block_t) (evs : list event) (st : SpdifTx) :
  Forall (event_ok (boot addr blocks)) evs →
  run (init (boot addr blocks)) evs = Some st →
  Forall (λ p, p ∈ left_right (accepted evs)
               ∧ p ≠ nullptr ∧ p ≠ addr_silentAudio
               ∧ pool_ptr (boot addr blocks) p)
         (releases (trace st)).
Proof.
  intros Hevs Hrun. apply Forall_forall. intros p Hp.
  assert (p ∈ left_right (accepted evs)) as Hacc.
  { rewrite <- (release_order_boot addr blocks evs st Hevs Hrun).
    apply elem_of_app. by left. }
  split; [done |]. by apply (accepted_ok _ evs).
Qed.

Lemma releases_only_accepted_blocks_witness :
  Forall (λ p, p ∈ left_right (accepted demo_events)
               ∧ p ≠ nullptr ∧ p ≠ addr_silentAudio
               ∧ pool_ptr (boot demo_base demo_pool) p)
         (releases (trace demo_played)).
Proof.
  apply (releases_only_accepted_blocks demo_base demo_pool demo_events
           demo_played).
  - compute_done.
  - compute_done.
Defined.

(** * Firings and calls in sequence *)

Lemma deref_data_ext st st' p :
  pool st' = pool st → silentAudio st' = silentAudio st →
  deref_data st' p = deref_data st p.
Proof. intros Hp Hs. destruct p; cbn; by rewrite ?Hp, ?Hs. Qed.

Lemma dmaISR_frame SADDR st st' :
  dmaISR SADDR st = Some st' →
  fifoTx_addr st' = fifoTx_addr st ∧ silentAudio st' = silentAudio st
  ∧ pool st' = pool st.
Proof.
  intros Hisr.
  by apply dmaISR_inv in Hisr as (_ & _ & _ & _ & _ & Ha & Hs & Hp & _).
Qed.

(** X10.  Two firings that fill the two halves: from a well-formed state
    with two pairs pending, a firing while the engine reads the first half
    followed by a firing while it reads the second half returns; the first
    encodes the older pair into the second half, the second encodes the
    newer pair into the first half, so that [fifoTx] then holds the
    encoding of the newer pair followed by that of the older pair and no
    word from before; the queues are empty and the four blocks have been
    released, older pair first. *)
Theorem two_firings_fill_both_halves (st : SpdifTx) (a1 a2 : Z)
    (l1 r1 l2 r2 : audio_block_ptr) :
  wf st → lockstep st → queues_ordered st →
  pending_pairs st = [(l1, r1); (l2, r2)] →
  wrap_uint32 (fifoTx_addr st) + 2048 <= 2 ^ 32 →
  wrap_uint32 (fifoTx_addr st) <= a1 < wrap_uint32 (fifoTx_addr st) + 1024 →
  wrap_uint32 (fifoTx_addr st) + 1024 <= a2
    < wrap_uint32 (fifoTx_addr st) + 2048 →
  ∃ st2 d1l d1r d2l d2r,
    run st [EvDmaISR a1; EvDmaISR a2] = Some st2
    ∧ deref_data st l1 = Some d1l ∧ deref_data st r1 = Some d1r
    ∧ deref_data st l2 = Some d2l ∧ deref_data st r2 = Some d2r
    ∧ fifoTx st2 = ideal_interleave d2l d2r ++ ideal_interleave d1l d1r
    ∧ pending_pairs st2 = []
    ∧ releases (trace st2) = releases (trace st) ++ [l1; r1; l2; r2].
Proof.
  intros Hwf Hlock Hord Hpp Hfit Ha1 Ha2.
  assert (0 <= wrap_uint32 (fifoTx_addr st)) as Hbase
    by (unfold wrap_uint32; apply Z.mod_pos_bound; lia).
  destruct (dmaISR_total a1 st Hwf) as [st1 Hisr1].
  destruct (dmaISR_closed_form a1 st st1 Hwf Hisr1)
    as (d1l & d1r & Hd1l & Hd1r & _ & _ & Hfifo1).
  destruct (dmaISR_pop a1 st st1 Hwf Hlock Hord Hisr1)
    as (Hpp1 & Hrel1 & Hf1l & Hf1r).
  destruct (dmaISR_frame a1 st st1 Hisr1) as (Haddr1 & Hsil1 & Hpool1).
  pose proof (wf_dmaISR a1 st st1 Hwf Hisr1) as Hwf1.
  pose proof (lockstep_dmaISR a1 st st1 Hlock Hisr1) as Hlock1.
  pose proof (queues_ordered_dmaISR a1 st st1 Hord Hisr1) as Hord1.
  destruct (dmaISR_total a2 st1 Hwf1) as [st2 Hisr2].
  destruct (dmaISR_closed_form a2 st1 st2 Hwf1 Hisr2)
    as (d2l & d2r & Hd2l & Hd2r & _ & _ & Hfifo2).
  destruct (dmaISR_pop a2 st1 st2 Hwf1 Hlock1 Hord1 Hisr2)
    as (Hpp2 & Hrel2 & Hf2l & Hf2r).
  rewrite Hpp in *. cbn in Hpp1, Hf1l, Hf1r, Hrel1.
  rewrite Hpp1 in *. cbn in Hpp2, Hf2l, Hf2r, Hrel2.
  rewrite Hf1l in Hd1l. rewrite Hf1r in Hd1r.
  rewrite Hf2l in Hd2l. rewrite Hf2r in Hd2r.
  rewrite (deref_data_ext st st1) in Hd2l, Hd2r by done.
  assert (isr_txOffset a1 st = 0x0100) as Hoff1
    by (apply getTxOffset_lower; lia).
  assert (isr_txOffset a2 st1 = 0x0000) as Hoff2
    by (unfold isr_txOffset; rewrite Haddr1; apply getTxOffset_upper; lia).
  rewrite Hoff1 in Hfifo1. rewrite Hoff2 in Hfifo2.
  destruct Hwf as (Hlen & _).
  exists st2, d1l, d1r, d2l, d2r.
  split; [cbn; rewrite Hisr1; cbn; by rewrite Hisr2 |].
  do 4 (split; [done |]).
  split; [| split; [done |]].
  - rewrite Hfifo2, Hfifo1.
    change (Z.to_nat 0) with 0%nat. change (Z.to_nat 256) with 256%nat.
    rewrite take_0. cbn [app]. f_equal.
    rewrite drop_app_length' by (rewrite length_take; lia).
    rewrite (drop_ge (fifoTx st)) by lia. by rewrite app_nil_r.
  - rewrite Hrel2, Hrel1. by rewrite <- (assoc_L (++)).
Qed.

Lemma two_firings_fill_both_halves_witness :
  ∃ st2 d1l d1r d2l d2r,
    run demo_full [EvDmaISR (demo_base + 8); EvDmaISR (demo_base + 1032)]
    = Some st2
    ∧ deref_data demo_full L1 = Some d1l ∧ deref_data demo_full R1 = Some d1r
    ∧ deref_data demo_full L2 = Some d2l ∧ deref_data demo_full R2 = Some d2r
    ∧ fifoTx st2 = ideal_interleave d2l d2r ++ ideal_interleave d1l d1r
    ∧ pending_pairs st2 = []
    ∧ releases (trace st2) = releases (trace demo_full) ++ [L1; R1; L2; R2].
Proof.
  apply (two_firings_fill_both_halves demo_full (demo_base + 8)
           (demo_base + 1032) L1 R1 L2 R2).
  - compute_done.
  - compute_done.
  - compute_done.
  - compute_done.
  - vm_compute. discriminate.
  - vm_compute. split; discriminate || reflexivity.
  - vm_compute. split; discriminate || reflexivity.
Defined.

Lemma pair_ok_ext st st' p : pool st' = pool st → pair_ok st p → pair_ok st' p.
Proof.
  intros Hpool [[Hl Hlp] [Hr Hrp]].
  repeat split; try done; by apply (pool_ptr_ext st).
Qed.

Lemma paced_cons p ps st :
  run st (paced (p :: ps))
  = st' ← dmaISR p.2 (update p.1.1 p.1.2 st); run st' (paced ps).
Proof. reflexivity. Qed.

(** X11.  Paced operation loses nothing: from a well-formed state with
    empty queues, when every [update] call brings two pool blocks and is
    followed by one firing, the run is defined, every pair is released by
    the firing that follows its call and by nothing else, in order, and the
    queues are empty again at the end. *)
Theorem paced_run_releases_each_pair
    (ps : list (audio_block_ptr * audio_block_ptr * Z)) (st : SpdifTx) :
  wf st → lockstep st → queues_ordered st → pending_pairs st = [] →
  Forall (λ p, pair_ok st p.1) ps →
  ∃ st', run st (paced ps) = Some st'
    ∧ wf st'
    ∧ pending_pairs st' = []
    ∧ releases (trace st') = releases (trace st) ++ left_right (ps.*1).
Proof.
  revert st. induction ps as [| [[l r] a] ps IH];
    intros st Hwf Hlock Hord Hpp Hps.
  - exists st. cbn. by rewrite app_nil_r.
  - apply Forall_cons in Hps as [[[Hl Hlp] [Hr Hrp]] Hps]. cbn in Hl, Hlp, Hr, Hrp.
    pose proof (wf_update l r st Hwf Hlp Hrp) as Hwf1.
    pose proof (lockstep_update l r st Hlock) as Hlock1.
    pose proof (queues_ordered_update l r st Hord) as Hord1.
    destruct (update_push l r st Hlock Hord Hl Hr) as [Hpp1 Hrel1].
    rewrite Hpp in Hpp1, Hrel1. cbn in Hpp1, Hrel1.
    destruct (dmaISR_total a (update l r st) Hwf1) as [st2 Hisr].
    destruct (dmaISR_pop a _ st2 Hwf1 Hlock1 Hord1 Hisr) as (Hpp2 & Hrel2 & _).
    rewrite Hpp1 in Hpp2, Hrel2. cbn in Hpp2, Hrel2.
    assert (pool st2 = pool st) as Hpool.
    { destruct (dmaISR_frame a _ st2 Hisr) as (_ & _ & ->).
      apply (pool_step st (EvUpdate l r)). reflexivity. }
    destruct (IH st2) as (st' & Hrun & Hwf' & Hpp' & Hrel').
    + by eapply wf_dmaISR.
    + by eapply lockstep_dmaISR.
    + by eapply queues_ordered_dmaISR.
    + done.
    + eapply Forall_impl; [done |]. intros p. by apply pair_ok_ext.
    + exists st'. rewrite paced_cons. cbn [fst snd]. rewrite Hisr.
      split; [done |]. do 2 (split; [done |]).
      rewrite Hrel', Hrel2, Hrel1, app_nil_r. cbn.
      by rewrite <- (assoc_L (++)).
Qed.

Lemma paced_run_releases_each_pair_witness :
  ∃ st', run demo_empty
           (paced [(L1, R1, demo_base); (L2, R2, demo_base + 1024);
                   (L3, R3, demo_base)]) = Some st'
    ∧ wf st'
    ∧ pending_pairs st' = []
    ∧ releases (trace st')
      = releases (trace demo_empty)
        ++ left_right ([(L1, R1, demo_base); (L2, R2, demo_base + 1024);
                        (L3, R3, demo_base)].*1).
Proof.
  apply (paced_run_releases_each_pair
           [(L1, R1, demo_base); (L2, R2, demo_base + 1024);
            (L3, R3, demo_base)] demo_empty).
  - compute_done.
  - compute_done.
  - compute_done.
  - compute_done.
  - compute_done.
Defined.

(** * The words of [fifoTx] *)








(** * The descriptor and the handler *)

Lemma source_at_configureDMA base stl k :
  source_at (configureDMA base stl) k = base + 8 * k.
Proof. unfold source_at. cbn. change (8 / 2 ^ 2 * 4) with 8. lia. Qed.

(** X13.  The descriptor fits the buffer and the handler: with the
    descriptor [configureDMA] writes for a 2048-byte buffer at
    [fifoTx_addr], each of the 256 service requests of a major loop reads
    eight bytes inside [fifoTx], the last adjustment brings the source back
    to the start of [fifoTx], and whenever the handler runs while request
    [k] is the next one served, the 256 words it writes do not contain the
    words that request reads; at the half-way interrupt ([k = 128]) it
    writes the first half, at the end of the loop ([k = 0] of the next) the
    second half. *)
Theorem descriptor_matches_handler (st : SpdifTx) (SPDIF_STL : Z)
    (tcd : TCD_t) (k : Z) :
  tcd = configureDMA (fifoTx_addr st) SPDIF_STL →
  0 <= fifoTx_addr st → fifoTx_addr st + 2048 <= 2 ^ 32 →
  0 <= k < TCD_BITER tcd →
  TCD_CITER tcd = TCD_BITER tcd
  ∧ source_after_loop tcd = fifoTx_addr st
  ∧ fifoTx_addr st <= source_at tcd k
  ∧ source_at tcd k + TCD_NBYTES_NBYTES tcd <= fifoTx_addr st + 4 * 512
  ∧ (∀ b, 0 <= b < TCD_NBYTES_NBYTES tcd →
       ¬ (isr_txOffset (source_at tcd k) st
          <= word_at (fifoTx_addr st) (source_at tcd k + b)
          < isr_txOffset (source_at tcd k) st + 256))
  ∧ (k = TCD_BITER tcd / 2 → isr_txOffset (source_at tcd k) st = 0x0000)
  ∧ (k = 0 → isr_txOffset (source_at tcd k) st = 0x0100).
Proof.
  intros -> Hbase Hfit Hk.
  cbn [configureDMA TCD_BITER TCD_CITER TCD_NBYTES_NBYTES] in *.
  unfold source_after_loop. rewrite !source_at_configureDMA.
  cbn [configureDMA TCD_BITER TCD_SLAST].
  unfold isr_txOffset.
  assert (wrap_uint32 (fifoTx_addr st) = fifoTx_addr st) as ->
    by (unfold wrap_uint32; apply Z.mod_small; lia).
  split; [done |]. split; [lia |]. split; [lia |]. split; [lia |].
  split; [| split].
  - intros b Hb. unfold word_at.
    destruct (decide (k < 128)) as [Hlow | Hup].
    + rewrite getTxOffset_lower by lia.
      assert ((fifoTx_addr st + 8 * k + b - fifoTx_addr st) / 4 < 256)
        by (apply Z.div_lt_upper_bound; lia).
      lia.
    + rewrite getTxOffset_upper by lia.
      assert (256 <= (fifoTx_addr st + 8 * k + b - fifoTx_addr st) / 4)
        by (apply Z.div_le_lower_bound; lia).
      lia.
  - intros ->. apply getTxOffset_upper; [lia | lia |].
    change (256 / 2) with 128. lia.
  - intros ->. apply getTxOffset_lower; lia.
Qed.

Lemma descriptor_matches_handler_witness :
  TCD_CITER (configureDMA demo_base 0x40380030)
  = TCD_BITER (configureDMA demo_base 0x40380030)
  ∧ source_after_loop (configureDMA demo_base 0x40380030)
    = fifoTx_addr demo_full
  ∧ fifoTx_addr demo_full <= source_at (configureDMA demo_base 0x40380030) 128
  ∧ source_at (configureDMA demo_base 0x40380030) 128
    + TCD_NBYTES_NBYTES (configureDMA demo_base 0x40380030)
    <= fifoTx_addr demo_full + 4 * 512
  ∧ (∀ b, 0 <= b < TCD_NBYTES_NBYTES (configureDMA demo_base 0x40380030) →
       ¬ (isr_txOffset (source_at (configureDMA demo_base 0x40380030) 128)
            demo_full
          <= word_at (fifoTx_addr demo_full)
               (source_at (configureDMA demo_base 0x40380030) 128 + b)
          < isr_txOffset (source_at (configureDMA demo_base 0x40380030) 128)
              demo_full + 256))
  ∧ (128 = TCD_BITER (configureDMA demo_base 0x40380030) / 2 →
       isr_txOffset (source_at (configureDMA demo_base 0x40380030) 128)
         demo_full = 0x0000)
  ∧ (128 = 0 →
       isr_txOffset (source_at (configureDMA demo_base 0x40380030) 128)
         demo_full = 0x0100).
Proof.
  apply (descriptor_matches_handler demo_full 0x40380030
           (configureDMA demo_base 0x40380030) 128).
  - reflexivity.
  - vm_compute. discriminate.
  - vm_compute. discriminate.
  - vm_compute. split; [discriminate | reflexivity].
Defined.
